(** * FarmMachinerySystem: the scheduling route ([app/api/schedule/route.ts])

  A shallow embedding of the road-network builder, the path finder, the
  coverage-path generator, the scheduling simulator and the efficiency
  scorer, followed by the properties established about them.

  JavaScript numbers are kept behind the interface [JsNumber]; the program
  computes with its instance [binary64], IEEE-754 double precision on
  Rocq's primitive floats.  Properties that do not depend on the arithmetic
  are proved for every instance, the others on [binary64]. *)

From Stdlib Require Import String.
From Stdlib Require Import ZArith List Bool Lia.
From Stdlib Require Import Floats.
From Stdlib Require Import Sorted.
Import ListNotations.

Set Implicit Arguments.

(* Decimal literals such as 0.18 denote the nearest double, as in JavaScript. *)
Set Warnings "-inexact-float".

(* ================================================================== *)
(** ** JavaScript numbers *)

Declare Scope js_scope.
Delimit Scope js_scope with js.

Class JsNumber (num : Type) : Type := {
  of_Z : Z -> num;                 (* integer literals, [array.length], loop indices *)
  POSITIVE_INFINITY : num;         (* [Number.POSITIVE_INFINITY] *)
  NEGATIVE_INFINITY : num;         (* [Math.max()] of no argument *)
  nadd : num -> num -> num;
  nsub : num -> num -> num;
  nmul : num -> num -> num;
  ndiv : num -> num -> num;
  nsqrt : num -> num;              (* [Math.sqrt] *)
  nfloor : num -> num;             (* [Math.floor] *)
  nceil : num -> num;              (* [Math.ceil] *)
  nround : num -> num;             (* [Math.round] *)
  nltb : num -> num -> bool;       (* [<] *)
  nleb : num -> num -> bool;       (* [<=] *)
  neqb : num -> num -> bool;       (* [===] *)
  nmin : num -> num -> num;        (* [Math.min] of two arguments *)
  nmax : num -> num -> num;        (* [Math.max] of two arguments *)
  truthy : num -> bool;            (* the number in a boolean position, as in [d || e] *)
  is_even : num -> bool;           (* [i % 2 === 0] *)
  key_eqb : num -> num -> bool     (* [`${a}` === `${b}`] *)
}.

Infix "+" := nadd : js_scope.
Infix "-" := nsub : js_scope.
Infix "*" := nmul : js_scope.
Infix "/" := ndiv : js_scope.
Infix "<?" := nltb (at level 70, no associativity) : js_scope.
Infix "<=?" := nleb (at level 70, no associativity) : js_scope.
Infix "===" := neqb (at level 70, no associativity) : js_scope.
Notation "x >? y" := (nltb y x) (at level 70, no associativity) : js_scope.
Notation "x >=? y" := (nleb y x) (at level 70, no associativity) : js_scope.
Notation "x !== y" := (negb (neqb x y)) (at level 70, no associativity) : js_scope.

(** A decimal literal [n/d] of the source ([0.1] is [dec 1 10]): the number
  nearest to the quotient of the two integers. *)
Definition dec {num} `{JsNumber num} (n d : Z) : num := (of_Z n / of_Z d)%js.

(** [d || e] on numbers. *)
Definition or_else {num} `{JsNumber num} (d e : num) : num :=
if truthy d then d else e.

(** [Math.min(...xs)] and [Math.max(...xs)]. *)
Definition min_list {num} `{JsNumber num} (xs : list num) : num :=
fold_left nmin xs POSITIVE_INFINITY.
Definition max_list {num} `{JsNumber num} (xs : list num) : num :=
fold_left nmax xs NEGATIVE_INFINITY.

(* ------------------------------------------------------------------ *)
(** *** IEEE-754 double precision *)

Module Binary64.

Local Open Scope float_scope.

(** The double nearest to an integer (exact below 2^53); the primitive
    conversion is used where the integer fits 62 bits. *)
Definition of_Z (z : Z) : float :=
  if (Z.abs z <? 2 ^ 62)%Z then
    match z with
    | Z0 => zero
    | Zpos _ => of_uint63 (Uint63.of_Z z)
    | Zneg _ => - of_uint63 (Uint63.of_Z (- z))
    end
  else SF2Prim (binary_normalize prec emax z 0 false).

Definition floor (x : float) : float :=
  match Prim2SF x with
  | S754_finite s m e =>
      if (0 <=? e)%Z then x
      else
        let q := Z.shiftr (Zpos m) (- e) in
        let exact := (Z.shiftl q (- e) =? Zpos m)%Z in
        if s then of_Z (- (if exact then q else q + 1)) else of_Z q
  | _ => x
  end.

Definition ceil (x : float) : float := - floor (- x).

(** [Math.round]: the nearest integer, a tie going up; the sign of a zero
    result is that of the argument. *)
Definition round (x : float) : float :=
  let f := floor x in
  if negb (is_finite x) || (f =? x) then x
  else
    let r := if x - f <? 0.5 then f else f + 1 in
    if is_zero r && (x <? 0) then neg_zero else r.

Definition max (a b : float) : float :=
  if is_nan a || is_nan b then nan
  else if a <? b then b
  else if b <? a then a
  else if get_sign a then b else a.

Definition min (a b : float) : float :=
  if is_nan a || is_nan b then nan
  else if a <? b then a
  else if b <? a then b
  else if get_sign a then a else b.

Definition truthy (x : float) : bool := negb (is_nan x || is_zero x).

Definition is_even (x : float) : bool :=
  match Prim2SF x with
  | S754_zero _ => true
  | S754_finite _ m e =>
      if (1 <=? e)%Z then true
      else (Z.land (Zpos m) (Z.ones (1 - e)) =? 0)%Z
  | _ => false
  end.

Definition key_eqb (a b : float) : bool := (a =? b) || (is_nan a && is_nan b).

End Binary64.

#[export] Instance binary64 : JsNumber float := {|
  of_Z := Binary64.of_Z;
  POSITIVE_INFINITY := infinity;
  NEGATIVE_INFINITY := neg_infinity;
  nadd := PrimFloat.add;
  nsub := PrimFloat.sub;
  nmul := PrimFloat.mul;
  ndiv := PrimFloat.div;
  nsqrt := PrimFloat.sqrt;
  nfloor := Binary64.floor;
  nceil := Binary64.ceil;
  nround := Binary64.round;
  nltb := PrimFloat.ltb;
  nleb := PrimFloat.leb;
  neqb := PrimFloat.eqb;
  nmin := Binary64.min;
  nmax := Binary64.max;
  truthy := Binary64.truthy;
  is_even := Binary64.is_even;
  key_eqb := Binary64.key_eqb
|}.

(* ================================================================== *)
(** ** Data model *)

(** The result of a computation that may not return: [None] stands for an
  uncaught exception, or for a loop that was given too little fuel. *)
Notation "x <- e ;; k" := (match e with Some x => k | None => None end)
  (at level 61, e at next level, right associativity, only parsing).
Notation "' p <- e ;; k" := (match e with Some p => k | None => None end)
  (at level 61, p pattern, e at next level, right associativity, only parsing).

(** The nine strings the simulator writes in the [action] field. *)
Inductive Action : Set :=
| start | road_travel | field_start | working | capacity_full
| emergency_road_travel | supply | supply_complete | return_.

Definition Action_eqb (a b : Action) : bool :=
match a, b with
| start, start | road_travel, road_travel | field_start, field_start
| working, working | capacity_full, capacity_full
| emergency_road_travel, emergency_road_travel | supply, supply
| supply_complete, supply_complete | return_, return_ => true
| _, _ => false
end.

Section Model.

Context {num : Type} `{JsNumber num}.
Local Open Scope js_scope.

Record Point := mkPoint { x : num; y : num }.

Record Field := mkField {
  f_id : num; f_x : num; f_y : num; width : num; height : num }.

Record Parameters := mkParameters {
  fieldWidth : num; fieldHeight : num; totalFields : num;
  machineCapacity : num; supplyDuration : num }.

Record ScheduleRequest := mkRequest {
  machineCount : nat;
  fields : list Field;
  req_baseStation : Point;
  parameters : Parameters }.

Record PathPoint := mkPathPoint {
  p_x : num; p_y : num; timestamp : num; action : Action }.

Record SupplyEvent := mkSupplyEvent { time : num; duration : num }.

Record MachineRoute := mkRoute {
  machineId : nat;
  r_path : list PathPoint;
  color : string;
  r_supplyEvents : list SupplyEvent }.

Record ScheduleResult := mkResult {
  machines : list MachineRoute;
  totalTime : num;
  efficiency : num;
  totalSupplyEvents : nat;
  baseStation : Point;
  roadNetwork : list Point }.

(** A road node.  The objects of the source are identified by their index
    in the network array, so [connections] holds indices; [n_id] is the
    string [`${x},${y}`], kept as the pair it is printed from. *)
Record RoadNode := mkNode {
  n_x : num; n_y : num; connections : list nat; n_id : num * num }.

Record MachineState := mkMachine {
  m_id : nat;
  currentCapacity : num;
  position : Point;
  currentTime : num;
  path : list PathPoint;
  supplyEvents : list SupplyEvent;
  isIdle : bool }.

Record FieldWorkState := mkFieldState {
  field : Field;
  completedPercentage : num;
  isCompleted : bool;
  workingMachine : option nat;
  assignedMachines : list nat;
  lastWorkPosition : option Point;
  workPath : list Point }.

Definition node_point (n : RoadNode) : Point := mkPoint (n_x n) (n_y n).

(* ================================================================ *)
(** ** Geometry utilities *)

Definition snapToGrid (position : Point) : Point :=
  mkPoint (nround (x position)) (nround (y position)).

(** [Math.pow(a, 2)]. *)
Definition pow2 (a : num) : num := a * a.

Definition calculateDistance (point1 point2 : Point) : num :=
  nsqrt (pow2 (x point2 - x point1) + pow2 (y point2 - y point1)).

Definition insideField (point : Point) (f : Field) : bool :=
  (x point >? f_x f) && (x point <? f_x f + width f)
  && (y point >? f_y f) && (y point <? f_y f + height f).

Definition isPointInsideAnyField (point : Point) (fields : list Field) : bool :=
  existsb (insideField point) fields.

Definition doesPathCrossFields (from to : Point) (fields : list Field) : bool :=
  let steps := 10%Z in
  existsb
    (fun i =>
       let t := of_Z i / of_Z steps in
       let checkPoint :=
         mkPoint (x from + (x to - x from) * t) (y from + (y to - y from) * t) in
       isPointInsideAnyField checkPoint fields)
    [1; 2; 3; 4; 5; 6; 7; 8; 9]%Z.

(* ================================================================ *)
(** ** Road network builder *)

Definition key_of (a b : num) : num * num := (a, b).

Definition same_key (k1 k2 : num * num) : bool :=
  key_eqb (fst k1) (fst k2) && key_eqb (snd k1) (snd k2).

(** [nodes] and [nodeMap] while the nodes are collected; the map is only
    ever asked [has], so its keys suffice. *)
Record Builder := mkBuilder { nodes : list RoadNode; nodeMap : list (num * num) }.

Definition map_has (m : list (num * num)) (key : num * num) : bool :=
  existsb (same_key key) m.

(** [nodeMap.set(key, node); nodes.push(node)] for a fresh node. *)
Definition push_node (a b : num) (st : Builder) : Builder :=
  let key := key_of a b in
  mkBuilder (nodes st ++ [mkNode a b [] key]) (nodeMap st ++ [key]).

Definition roadSpacing : num := of_Z 10.

(** [for (let y = minY; y <= maxY; y += roadSpacing)] at a given [x]. *)
Fixpoint grid_column (fuel : nat) (fields : list Field) (gx gy maxY : num)
    (st : Builder) : option Builder :=
  match fuel with
  | O => None
  | S fuel' =>
      if gy <=? maxY then
        let st' :=
          if negb (isPointInsideAnyField (mkPoint gx gy) fields)
          then push_node gx gy st else st in
        grid_column fuel' fields gx (gy + roadSpacing) maxY st'
      else Some st
  end.

(** [for (let x = minX; x <= maxX; x += roadSpacing)]. *)
Fixpoint grid_rows (fuel fuel_y : nat) (fields : list Field)
    (gx maxX minY maxY : num) (st : Builder) : option Builder :=
  match fuel with
  | O => None
  | S fuel' =>
      if gx <=? maxX then
        st' <- grid_column fuel_y fields gx minY maxY st ;;
        grid_rows fuel' fuel_y fields (gx + roadSpacing) maxX minY maxY st'
      else Some st
  end.

Definition add_base (fields : list Field) (baseStation : Point) (st : Builder) : Builder :=
  if negb (isPointInsideAnyField baseStation fields) then
    if negb (map_has (nodeMap st) (key_of (x baseStation) (y baseStation)))
    then push_node (x baseStation) (y baseStation) st else st
  else st.

Definition corners (f : Field) : list Point :=
  [ mkPoint (f_x f) (f_y f);
    mkPoint (f_x f + width f) (f_y f);
    mkPoint (f_x f) (f_y f + height f);
    mkPoint (f_x f + width f) (f_y f + height f) ].

Definition add_corner (st : Builder) (corner : Point) : Builder :=
  if negb (map_has (nodeMap st) (key_of (x corner) (y corner)))
  then push_node (x corner) (y corner) st else st.

Definition add_corners (fields : list Field) (st : Builder) : Builder :=
  fold_left (fun st f => fold_left add_corner (corners f) st) fields st.

(** The connections of node [i]: the other nodes within [roadSpacing * 1.5]
    whose segment to it crosses no field, in array order. *)
Definition connections_of (fields : list Field) (all : list RoadNode)
    (i : nat) (node : RoadNode) : list nat :=
  map fst
    (filter
       (fun jo =>
          if negb (Nat.eqb i (fst jo)) then
            let distance := calculateDistance (node_point node) (node_point (snd jo)) in
            if distance <=? roadSpacing * dec 15 10 then
              negb (doesPathCrossFields (node_point node) (node_point (snd jo)) fields)
            else false
          else false)
       (combine (seq 0 (length all)) all)).

Definition connect (fields : list Field) (all : list RoadNode) : list RoadNode :=
  map (fun io =>
         mkNode (n_x (snd io)) (n_y (snd io))
           (connections (snd io) ++ connections_of fields all (fst io) (snd io))
           (n_id (snd io)))
      (combine (seq 0 (length all)) all).

Definition generateFieldRoadNetwork (fuel : nat) (fields : list Field)
    (baseStation : Point) : option (list RoadNode) :=
  let minX := min_list (map f_x fields ++ [x baseStation]) - of_Z 20 in
  let maxX := max_list (map (fun f => f_x f + width f) fields ++ [x baseStation]) + of_Z 20 in
  let minY := min_list (map f_y fields ++ [y baseStation]) - of_Z 20 in
  let maxY := max_list (map (fun f => f_y f + height f) fields ++ [y baseStation]) + of_Z 20 in
  st <- grid_rows fuel fuel fields minX maxX minY maxY (mkBuilder [] []) ;;
  let st := add_base fields baseStation st in
  let st := add_corners fields st in
  Some (connect fields (nodes st)).

(* ================================================================ *)
(** ** Shortest path finder *)

Definition indexed (roadNetwork : list RoadNode) : list (nat * RoadNode) :=
  combine (seq 0 (length roadNetwork)) roadNetwork.

(** The callback of [roadNetwork.reduce((closest, node) => ...)]. *)
Definition closer (p : Point) (closest node : nat * RoadNode) : nat * RoadNode :=
  let currentDist := calculateDistance p (node_point (snd node)) in
  let closestDist := calculateDistance p (node_point (snd closest)) in
  if currentDist <? closestDist then node else closest.

(** [reduce] without an initial value throws on an empty array. *)
Definition nearest_node (p : Point) (roadNetwork : list RoadNode)
    : option (nat * RoadNode) :=
  match indexed roadNetwork with
  | [] => None
  | first :: rest => Some (fold_left (closer p) rest first)
  end.

Fixpoint set_nth {A} (l : list A) (i : nat) (v : A) : list A :=
  match l, i with
  | [], _ => []
  | _ :: t, O => v :: t
  | h :: t, S i' => h :: set_nth t i' v
  end.

(** [distances], [previous] (both keyed by node, here by index) and the
    insertion-ordered set [unvisited]. *)
Record Dijkstra := mkDijkstra {
  distances : list num;
  previous : list (option nat);
  unvisited : list nat }.

(** [distances.get(node) || Number.POSITIVE_INFINITY]. *)
Definition get_distance (ds : list num) (node : nat) : num :=
  match nth_error ds node with
  | Some d => or_else d POSITIVE_INFINITY
  | None => POSITIVE_INFINITY
  end.

(** The scan of [unvisited] for the node of least distance. *)
Definition select_current (ds : list num) (unv : list nat) : option nat * num :=
  fold_left
    (fun (acc : option nat * num) node =>
       let dist := get_distance ds node in
       if dist <? snd acc then (Some node, dist) else acc)
    unv (None, POSITIVE_INFINITY).

Definition relax (roadNetwork : list RoadNode) (current : nat) (cnode : RoadNode)
    (st : Dijkstra) (neighbor : nat) : Dijkstra :=
  if existsb (Nat.eqb neighbor) (unvisited st) then
    match nth_error roadNetwork neighbor with
    | Some nnode =>
        let alt := get_distance (distances st) current
                   + calculateDistance (node_point cnode) (node_point nnode) in
        if alt <? get_distance (distances st) neighbor then
          mkDijkstra (set_nth (distances st) neighbor alt)
                     (set_nth (previous st) neighbor (Some current))
                     (unvisited st)
        else st
    | None => st
    end
  else st.

(** [while (unvisited.size > 0) { ... }]; every iteration that does not
    break deletes a node from [unvisited]. *)
Fixpoint dijkstra_loop (fuel : nat) (roadNetwork : list RoadNode) (endNode : nat)
    (st : Dijkstra) : option Dijkstra :=
  match unvisited st with
  | [] => Some st
  | _ :: _ =>
      match fuel with
      | O => None
      | S fuel' =>
          match fst (select_current (distances st) (unvisited st)) with
          | None => Some st
          | Some current =>
              if Nat.eqb current endNode then Some st
              else
                match nth_error roadNetwork current with
                | None => None
                | Some cnode =>
                    let st1 := mkDijkstra (distances st) (previous st)
                                 (filter (fun n => negb (Nat.eqb n current)) (unvisited st)) in
                    dijkstra_loop fuel' roadNetwork endNode
                      (fold_left (relax roadNetwork current cnode) (connections cnode) st1)
                end
          end
      end
  end.

(** [while (current) { path.unshift(...); current = previous.get(current) || null }]. *)
Fixpoint reconstruct (fuel : nat) (roadNetwork : list RoadNode)
    (prev : list (option nat)) (current : option nat) (path : list Point)
    : option (list Point) :=
  match current with
  | None => Some path
  | Some c =>
      match fuel with
      | O => None
      | S fuel' =>
          node <- nth_error roadNetwork c ;;
          reconstruct fuel' roadNetwork prev
            (match nth_error prev c with Some (Some p) => Some p | _ => None end)
            (node_point node :: path)
      end
  end.

Definition findShortestPath (start_ end_ : Point) (roadNetwork : list RoadNode)
    : option (list Point) :=
  startNode <- nearest_node start_ roadNetwork ;;
  endNode <- nearest_node end_ roadNetwork ;;
  let n := length roadNetwork in
  let st0 :=
    mkDijkstra (set_nth (repeat POSITIVE_INFINITY n) (fst startNode) (of_Z 0))
               (repeat None n) (seq 0 n) in
  st <- dijkstra_loop n roadNetwork (fst endNode) st0 ;;
  path <- reconstruct (S n) roadNetwork (previous st) (Some (fst endNode)) [] ;;
  let straight := [node_point (snd startNode); node_point (snd endNode)] in
  match path with
  | p0 :: _ =>
      if (x p0 === n_x (snd startNode)) && (y p0 === n_y (snd startNode))
      then Some path else Some straight
  | [] => Some straight
  end.

(* ================================================================ *)
(** ** Field entry point *)

Definition selectOptimalFieldEntryPoint (f : Field) (baseStation : Point)
    (lastWorkPosition : option Point) : Point :=
  match lastWorkPosition with
  | Some p => p
  | None =>
      let closestCorner := mkPoint (f_x f) (f_y f) in
      let minDistance := calculateDistance baseStation closestCorner in
      fst (fold_left
             (fun (acc : Point * num) corner =>
                let distance := calculateDistance baseStation corner in
                if distance <? snd acc then (corner, distance) else acc)
             (corners f) (closestCorner, minDistance))
  end.

(* ================================================================ *)
(** ** Field coverage path generator *)

(** [for (let i = startRow; i < endRow; i++)]. *)
Fixpoint work_rows (fuel : nat) (f : Field) (startPercentage totalRows startRow endRow : num)
    (i : num) (path : list Point) : option (list Point) :=
  match fuel with
  | O => None
  | S fuel' =>
      if i <? endRow then
        let gy := f_y f + (i * height f) / totalRows in
        let resumed := (i === startRow) && (startPercentage >? of_Z 0) in
        let row :=
          if is_even i then
            [ (if resumed
               then mkPoint (f_x f + (startPercentage * totalRows - startRow) * width f) gy
               else mkPoint (f_x f) gy);
              mkPoint (f_x f + width f) gy ]
          else
            [ (if resumed
               then mkPoint (f_x f + width f
                             - (startPercentage * totalRows - startRow) * width f) gy
               else mkPoint (f_x f + width f) gy);
              mkPoint (f_x f) gy ] in
        work_rows fuel' f startPercentage totalRows startRow endRow (i + of_Z 1) (path ++ row)
      else Some path
  end.

Definition generateContinuousFieldWorkPath (fuel : nat) (f : Field)
    (startPercentage workPercentage : num) : option (list Point) :=
  let rowSpacing := of_Z 5 in
  let totalRows := nmax (of_Z 1) (nfloor (height f / rowSpacing)) in
  let startRow := nfloor (startPercentage * totalRows) in
  let endRow := nmin totalRows (nceil ((startPercentage + workPercentage) * totalRows)) in
  work_rows fuel f startPercentage totalRows startRow endRow startRow [].

(* ================================================================ *)
(** ** Efficiency scorer *)

Definition calculateEfficiency (machines : list MachineState)
    (fieldStates : list FieldWorkState) : num :=
  let completedFields := length (filter isCompleted fieldStates) in
  let totalFields := length fieldStates in
  let completionRate := of_Z (Z.of_nat completedFields) / of_Z (Z.of_nat totalFields) in
  let count := of_Z (Z.of_nat (length machines)) in
  let avgTime :=
    fold_left (fun sum machine => sum + currentTime machine) machines (of_Z 0) / count in
  let timeVariance :=
    fold_left (fun sum machine => sum + pow2 (currentTime machine - avgTime))
              machines (of_Z 0) / count in
  let balanceScore :=
    nmax (dec 5 10) (of_Z 1 - timeVariance / (avgTime * avgTime + of_Z 1)) in
  completionRate * balanceScore.

(* ================================================================ *)
(** ** Scheduling simulator *)

Definition set_time (m : MachineState) (t : num) : MachineState :=
  mkMachine (m_id m) (currentCapacity m) (position m) t (path m) (supplyEvents m) (isIdle m).
Definition set_position (m : MachineState) (p : Point) : MachineState :=
  mkMachine (m_id m) (currentCapacity m) p (currentTime m) (path m) (supplyEvents m) (isIdle m).
Definition set_capacity (m : MachineState) (c : num) : MachineState :=
  mkMachine (m_id m) c (position m) (currentTime m) (path m) (supplyEvents m) (isIdle m).
Definition push_path (m : MachineState) (ps : list PathPoint) : MachineState :=
  mkMachine (m_id m) (currentCapacity m) (position m) (currentTime m) (path m ++ ps)
            (supplyEvents m) (isIdle m).
Definition push_supply (m : MachineState) (e : SupplyEvent) : MachineState :=
  mkMachine (m_id m) (currentCapacity m) (position m) (currentTime m) (path m)
            (supplyEvents m ++ [e]) (isIdle m).

(** One leg of a road path driven by the machine. *)
Definition advance (m : MachineState) (point : Point) : MachineState :=
  let travelTime := calculateDistance (position m) point / of_Z 5 in
  set_position (set_time m (currentTime m + travelTime)) point.

(** The callback of [returnPath.forEach] on the resupply trip and on the
    final return: the leg is pushed on the machine's own path. *)
Definition home_leg (m : MachineState) (point : Point) : MachineState :=
  let m := advance m point in
  push_path m [mkPathPoint (x point) (y point) (currentTime m) road_travel].

(** [returnPath.forEach((point, index) => { if (index > 0) { ... } })]. *)
Definition drive_home (m : MachineState) (returnPath : list Point) : MachineState :=
  fold_left home_leg (tl returnPath) m.

(** [if (machine.currentCapacity < 0.1) { ... }]. *)
Definition resupply (m : MachineState) (machineCapacity supplyDuration : num)
    (roadNetwork : list RoadNode) (gridBaseStation : Point) : option MachineState :=
  if currentCapacity m <? dec 1 10 then
    returnPath <- findShortestPath (position m) gridBaseStation roadNetwork ;;
    let m := drive_home m returnPath in
    let m := push_path m [mkPathPoint (x gridBaseStation) (y gridBaseStation)
                            (currentTime m) supply] in
    let m := push_supply m (mkSupplyEvent (currentTime m) supplyDuration) in
    let m := set_time m (currentTime m + supplyDuration) in
    let m := set_capacity m machineCapacity in
    let m := set_position m gridBaseStation in
    Some (push_path m [mkPathPoint (x gridBaseStation) (y gridBaseStation)
                         (currentTime m) supply_complete])
  else Some m.

Record WorkResult := mkWork {
  pathSegments : list PathPoint;
  endPosition : Point;
  capacityUsed : num;
  workTime : num;
  w_workPath : list Point }.

(** The callback of [travelPath.forEach] in [executeFieldWorkWithRoadNetwork]:
    the machine is moved, the snapped leg goes to [pathSegments]. *)
Definition field_leg (acc : MachineState * list PathPoint) (point : Point)
    : MachineState * list PathPoint :=
  let m := advance (fst acc) point in
  let gridPoint := snapToGrid point in
  (m, snd acc ++ [mkPathPoint (x gridPoint) (y gridPoint) (currentTime m) road_travel]).

Definition drive_to_field (m : MachineState) (travelPath : list Point)
    : MachineState * list PathPoint :=
  fold_left field_leg (tl travelPath) (m, []).

(** The callback of [returnPath.forEach] after [capacity_full]: every leg is
    timed from [gridPoint]; [acc] is [returnTime] and [pathSegments]. *)
Definition emergency_leg (m : MachineState) (gridPoint : Point)
    (acc : num * list PathPoint) (returnPoint : Point) : num * list PathPoint :=
  let segmentTime := calculateDistance gridPoint returnPoint / of_Z 5 in
  let returnTime := fst acc + segmentTime in
  (returnTime,
   snd acc ++ [mkPathPoint (x returnPoint) (y returnPoint)
                 (currentTime m + returnTime) emergency_road_travel]).

Definition emergency_return (m : MachineState) (gridPoint : Point)
    (returnPath : list Point) (returnTime : num) (segs : list PathPoint)
    : num * list PathPoint :=
  fold_left (emergency_leg m gridPoint) (tl returnPath) (returnTime, segs).

(** [for (let i = 0; i < fieldWorkPath.length; i++)], on the points that
    remain; [acc] holds [pathSegments], [endPosition], [currentCapacityUsed],
    [workTime] and [workPath]. *)
Fixpoint work_points (m : MachineState) (roadNetwork : list RoadNode)
    (baseStation : Point) (capacityPerPoint timePerPoint : num)
    (points : list Point) (acc : WorkResult) : option WorkResult :=
  match points with
  | [] => Some acc
  | point :: rest =>
      let gridPoint := snapToGrid point in
      let nextCapacityUsed := capacityUsed acc + capacityPerPoint in
      if currentCapacity m - nextCapacityUsed <? dec 5 100 then
        let segs :=
          pathSegments acc
          ++ [mkPathPoint (x gridPoint) (y gridPoint)
                (currentTime m + workTime acc + timePerPoint) capacity_full] in
        returnPath <- findShortestPath gridPoint baseStation roadNetwork ;;
        let back :=
          emergency_return m gridPoint returnPath (workTime acc + timePerPoint) segs in
        Some (mkWork (snd back) gridPoint nextCapacityUsed (fst back)
                     (w_workPath acc ++ [gridPoint]))
      else
        let workTime' := workTime acc + timePerPoint in
        work_points m roadNetwork baseStation capacityPerPoint timePerPoint rest
          (mkWork
             (pathSegments acc
              ++ [mkPathPoint (x gridPoint) (y gridPoint) (currentTime m + workTime') working])
             gridPoint nextCapacityUsed workTime' (w_workPath acc ++ [gridPoint]))
  end.

(** The machine is passed by reference: its time and position are advanced
    by the trip to the field, so it is returned next to the result. *)
Definition executeFieldWorkWithRoadNetwork (fuel : nat) (machine : MachineState)
    (fieldState : FieldWorkState) (machineCapacity : num)
    (roadNetwork : list RoadNode) (baseStation : Point)
    : option (MachineState * WorkResult) :=
  let f := field fieldState in
  let remainingWork := nmax (of_Z 0) (of_Z 1 - completedPercentage fieldState) in
  let availableCapacity := nmin (currentCapacity machine) remainingWork in
  if availableCapacity <=? dec 5 100 then
    Some (machine, mkWork [] (position machine) (of_Z 0) (of_Z 0) [])
  else
    let workStartPoint :=
      selectOptimalFieldEntryPoint f baseStation (lastWorkPosition fieldState) in
    travelPath <- findShortestPath (position machine) workStartPoint roadNetwork ;;
    let driven := drive_to_field machine travelPath in
    let gridStartPoint := snapToGrid workStartPoint in
    let machine := set_position (fst driven) gridStartPoint in
    let segs :=
      snd driven ++ [mkPathPoint (x gridStartPoint) (y gridStartPoint)
                       (currentTime machine) field_start] in
    fieldWorkPath <-
      generateContinuousFieldWorkPath fuel f (completedPercentage fieldState)
        availableCapacity ;;
    match fieldWorkPath with
    | [] => Some (machine, mkWork segs gridStartPoint (of_Z 0) (of_Z 0) [])
    | _ :: _ =>
        let count := of_Z (Z.of_nat (length fieldWorkPath)) in
        let capacityPerPoint := availableCapacity / count in
        let timePerPoint := (availableCapacity * of_Z 180) / count in
        r <- work_points machine roadNetwork baseStation capacityPerPoint timePerPoint
               fieldWorkPath (mkWork segs gridStartPoint (of_Z 0) (of_Z 0) []) ;;
        Some (machine, r)
    end.

(** [fieldStates.find((fs) => !fs.isCompleted)], with the index of the
    state found: the loop body updates it in place. *)
Fixpoint find_available (fieldStates : list FieldWorkState) : option (nat * FieldWorkState) :=
  match fieldStates with
  | [] => None
  | fs :: rest =>
      if negb (isCompleted fs) then Some (O, fs)
      else match find_available rest with
           | Some (i, a) => Some (S i, a)
           | None => None
           end
  end.

(** The updates of [availableField] that close the loop body. *)
Definition record_work (fs : FieldWorkState) (r : WorkResult) : FieldWorkState :=
  let completed := completedPercentage fs + capacityUsed r in
  mkFieldState (field fs) completed
    (if completed >=? dec 99 100 then true else isCompleted fs)
    (workingMachine fs) (assignedMachines fs)
    (Some (endPosition r)) (workPath fs ++ w_workPath r).

(** The part of the loop body after [continue] and [break] were passed. *)
Definition machine_turn (fuel : nat) (machineCapacity supplyDuration : num)
    (roadNetwork : list RoadNode) (gridBaseStation : Point)
    (machine : MachineState) (availableField : FieldWorkState)
    : option (MachineState * FieldWorkState) :=
  machine <- resupply machine machineCapacity supplyDuration roadNetwork gridBaseStation ;;
  ' (machine, workResult) <-
    executeFieldWorkWithRoadNetwork fuel machine availableField machineCapacity
      roadNetwork gridBaseStation ;;
  let machine := set_capacity machine (currentCapacity machine - capacityUsed workResult) in
  let machine := set_time machine (currentTime machine + workTime workResult) in
  let machine := set_position machine (endPosition workResult) in
  let machine := push_path machine (pathSegments workResult) in
  Some (machine, record_work availableField workResult).

(** [for (const machine of machines) { ... }] at the tick [now]. *)
Fixpoint for_machines (fuel : nat) (machineCapacity supplyDuration : num)
    (roadNetwork : list RoadNode) (gridBaseStation : Point) (now : num)
    (machines : list MachineState) (fieldStates : list FieldWorkState)
    : option (list MachineState * list FieldWorkState) :=
  match machines with
  | [] => Some ([], fieldStates)
  | machine :: rest =>
      if currentTime machine >? now then
        ' (rest', fieldStates') <-
          for_machines fuel machineCapacity supplyDuration roadNetwork gridBaseStation
            now rest fieldStates ;;
        Some (machine :: rest', fieldStates')
      else
        match find_available fieldStates with
        | None => Some (machine :: rest, fieldStates)
        | Some (k, availableField) =>
            ' (machine', availableField') <-
              machine_turn fuel machineCapacity supplyDuration roadNetwork
                gridBaseStation machine availableField ;;
            ' (rest', fieldStates') <-
              for_machines fuel machineCapacity supplyDuration roadNetwork gridBaseStation
                now rest (set_nth fieldStates k availableField') ;;
            Some (machine' :: rest', fieldStates')
        end
  end.

Definition maxTime : num := of_Z 3600 * of_Z 8.

(** [while (currentTime < maxTime && fieldStates.some((fs) => !fs.isCompleted))];
    [ticks] bounds the number of times the condition is evaluated. *)
Fixpoint schedule_loop (ticks fuel : nat) (machineCapacity supplyDuration : num)
    (roadNetwork : list RoadNode) (gridBaseStation : Point) (now : num)
    (machines : list MachineState) (fieldStates : list FieldWorkState)
    : option (list MachineState * list FieldWorkState) :=
  match ticks with
  | O => None
  | S ticks' =>
      if (now <? maxTime) && existsb (fun fs => negb (isCompleted fs)) fieldStates then
        ' (machines', fieldStates') <-
          for_machines fuel machineCapacity supplyDuration roadNetwork gridBaseStation
            now machines fieldStates ;;
        schedule_loop ticks' fuel machineCapacity supplyDuration roadNetwork
          gridBaseStation (now + of_Z 60) machines' fieldStates'
      else Some (machines, fieldStates)
  end.

(** [machines.forEach((machine) => { if (machine.position ...) ... })]. *)
Definition return_home (roadNetwork : list RoadNode) (gridBaseStation : Point)
    (machine : MachineState) : option MachineState :=
  if (x (position machine) !== x gridBaseStation)
     || (y (position machine) !== y gridBaseStation) then
    returnPath <- findShortestPath (position machine) gridBaseStation roadNetwork ;;
    let m := drive_home machine returnPath in
    Some (push_path m [mkPathPoint (x gridBaseStation) (y gridBaseStation)
                         (currentTime m) return_])
  else Some machine.

Fixpoint return_all (roadNetwork : list RoadNode) (gridBaseStation : Point)
    (machines : list MachineState) : option (list MachineState) :=
  match machines with
  | [] => Some []
  | m :: rest =>
      m' <- return_home roadNetwork gridBaseStation m ;;
      rest' <- return_all roadNetwork gridBaseStation rest ;;
      Some (m' :: rest')
  end.

Definition colors : list string :=
  ["#3b82f6"; "#ef4444"; "#f59e0b"; "#8b5cf6"; "#ec4899"; "#06b6d4"; "#f97316"; "#6366f1"]%string.

Definition initial_machine (gridBaseStation : Point) (machineCapacity : num) (i : nat)
    : MachineState :=
  mkMachine (i + 1) machineCapacity gridBaseStation (of_Z 0)
    [mkPathPoint (x gridBaseStation) (y gridBaseStation) (of_Z 0) start] [] true.

Definition initial_field (f : Field) : FieldWorkState :=
  mkFieldState f (of_Z 0) false None [] None [].

Definition route_of (machine : MachineState) : MachineRoute :=
  mkRoute (m_id machine) (path machine)
    (nth ((m_id machine - 1) mod length colors) colors ""%string)
    (supplyEvents machine).

(** The state the simulation ends in: the road network, the machines after
    their return to the base, and the field states. *)
Definition simulate (ticks fuel : nat) (data : ScheduleRequest)
    : option (list RoadNode * list MachineState * list FieldWorkState) :=
  let machineCapacity := machineCapacity (parameters data) in
  let supplyDuration := supplyDuration (parameters data) in
  let gridBaseStation := snapToGrid (req_baseStation data) in
  roadNetwork <- generateFieldRoadNetwork fuel (fields data) gridBaseStation ;;
  let machines :=
    map (initial_machine gridBaseStation machineCapacity) (seq 0 (machineCount data)) in
  let fieldStates := map initial_field (fields data) in
  ' (machines, fieldStates) <-
    schedule_loop ticks fuel machineCapacity supplyDuration roadNetwork gridBaseStation
      (of_Z 0) machines fieldStates ;;
  machines <- return_all roadNetwork gridBaseStation machines ;;
  Some (roadNetwork, machines, fieldStates).

Definition generateScheduleWithRoadNetwork (ticks fuel : nat) (data : ScheduleRequest)
    : option ScheduleResult :=
  let gridBaseStation := snapToGrid (req_baseStation data) in
  match fields data with
  | [] => Some (mkResult [] (of_Z 0) (of_Z 0) 0 gridBaseStation [])
  | _ :: _ =>
      ' (roadNetwork, machines, fieldStates) <- simulate ticks fuel data ;;
      let machineRoutes := map route_of machines in
      let totalSupplyEvents :=
        fold_left (fun sum machine => sum + length (supplyEvents machine))%nat machines 0%nat in
      let totalTime := max_list (map currentTime machines) / of_Z 60 in
      let efficiency := calculateEfficiency machines fieldStates in
      Some (mkResult machineRoutes totalTime efficiency totalSupplyEvents
              gridBaseStation (map node_point roadNetwork))
  end.

End Model.


(* ================================================================== *)
(** ** Notions the properties are stated with *)

(** The value of the loop clock after [k] ticks of 60. *)
Fixpoint tick {num} `{JsNumber num} (k : nat) : num :=
  match k with
  | O => of_Z 0
  | S k' => (tick k' + of_Z 60)%js
  end.

(** Facts about the constants of the program: zero is falsy, infinity is
    not below itself, and the clock has reached [maxTime] after 480 ticks. *)
Class JsFacts {num : Type} (J : JsNumber num) : Prop := {
  zero_falsy : truthy (of_Z 0) = false;
  infinity_not_below : (POSITIVE_INFINITY <? POSITIVE_INFINITY)%js = false;
  clock_ceiling : (tick 480 <? maxTime)%js = false
}.

(* ================================================================== *)
(** ** Concrete requests, on binary64 *)

Module Scenario.

Local Open Scope float_scope.

(** One field of 100 by 80 at the origin, one machine, the base station at
    (50, 40), a supply that lasts 30; the capacity is left open. *)
Definition single_field (capacity : float) : @ScheduleRequest float :=
  mkRequest 1 [mkField 1 0 0 100 80] (mkPoint 50 40)
    (mkParameters 100 80 1 capacity 30).

(** The same field with no machine at all. *)
Definition no_machine : @ScheduleRequest float :=
  mkRequest 0 [mkField 1 0 0 100 80] (mkPoint 50 40) (mkParameters 100 80 1 1 30).

(** Two fields that overlap: the corner (10, 10) of the second lies inside
    the first, the corner (20, 20) of the first inside the second. *)
Definition overlapping : list (@Field float) :=
  [mkField 1 0 0 20 20; mkField 2 10 10 20 20].

(** One field of nine rows (height 45), worked by a machine of capacity 1. *)
Definition nine_rows : @ScheduleRequest float :=
  mkRequest 1 [mkField 1 0 0 100 45] (mkPoint 50 (-10)) (mkParameters 100 45 1 1 30).

(** The base station on the right edge of the field, on its second row. *)
Definition base_on_row : @ScheduleRequest float :=
  mkRequest 1 [mkField 1 0 0 100 44] (mkPoint 100 6) (mkParameters 100 44 1 0.18 30).

(** A field and a base station at the abscissa 1e20, where adding 10 to a
    coordinate leaves it unchanged. *)
Definition far_away : @ScheduleRequest float :=
  mkRequest 1 [mkField 1 1e20 0 100 80] (mkPoint 1e20 0) (mkParameters 100 80 1 1 30).

(** How often each machine logged the action [a]. *)
Definition count_action (a : Action) (r : @ScheduleResult float) : list nat :=
  map (fun m => length (filter (fun p => Action_eqb (action p) a) (r_path m))) (machines r).

(** The timestamp of the last point of each machine's path. *)
Definition final_timestamps (r : @ScheduleResult float) : list float :=
  map (fun m => last (map timestamp (r_path m)) nan) (machines r).

Definition summary (r : @ScheduleResult float) :=
  (totalTime r, efficiency r, totalSupplyEvents r,
   count_action capacity_full r, count_action supply r, final_timestamps r).

End Scenario.

(* ================================================================== *)
(** ** Notions for the simulation *)

(** The timestamps of a path never go down from one point to the next. *)
Definition nondecreasing {num} {J : JsNumber num} (l : list (@PathPoint num)) : Prop :=
  forall i p q,
    nth_error l i = Some p -> nth_error l (S i) = Some q ->
    (timestamp p <=? timestamp q)%js = true.

(** A completed-fraction within [0, 1]. *)
Definition in_unit_interval {num} {J : JsNumber num} (c : num) : Prop :=
  (of_Z 0 <=? c)%js = true /\ (c <=? of_Z 1)%js = true.

(** The states the simulation passes through: from the initial machines and
    field states, any machine may take the turn of the loop body on the
    first field that is not completed.  (The loop takes these turns in the
    order of the machine array, and skips a machine whose clock is ahead.) *)
Inductive reach {num} {J : JsNumber num} (fuel : nat) (machineCapacity supplyDuration : num)
    (roadNetwork : list RoadNode) (gridBaseStation : Point)
    (init : list MachineState * list FieldWorkState)
    : list MachineState * list FieldWorkState -> Prop :=
| reach_init : reach fuel machineCapacity supplyDuration roadNetwork gridBaseStation init init
| reach_turn ms fss j m k af m' af' :
    reach fuel machineCapacity supplyDuration roadNetwork gridBaseStation init (ms, fss) ->
    nth_error ms j = Some m ->
    find_available fss = Some (k, af) ->
    machine_turn fuel machineCapacity supplyDuration roadNetwork gridBaseStation m af
    = Some (m', af') ->
    reach fuel machineCapacity supplyDuration roadNetwork gridBaseStation init
      (set_nth ms j m', set_nth fss k af').

(* ================================================================== *)
(** ** Notions for the further properties *)

(** The string of a number is equal to itself. *)
Class KeyFacts {num : Type} (J : JsNumber num) : Prop := {
  key_eqb_refl : forall a : num, key_eqb a a = true
}.

(** What the builder keeps while it collects nodes: every node is outside
    the fields or a corner of one, carries the key of its coordinates, and
    [nodeMap] holds the keys of [nodes], in order. *)
Definition outside_or_corner {num} {J : JsNumber num} (fields : list (@Field num))
    (p : @Point num) : Prop :=
  isPointInsideAnyField p fields = false
  \/ exists f, In f fields /\ In p (corners f).

Definition builder_sound {num} {J : JsNumber num} (fields : list (@Field num))
    (st : @Builder num) : Prop :=
  Forall (fun n => outside_or_corner fields (node_point n)
                   /\ n_id n = key_of (n_x n) (n_y n)
                   /\ connections n = []) (nodes st)
  /\ nodeMap st = map (@n_id num) (nodes st).

(** Two indexed nodes at the same index and the same place. *)
Definition same_place {num} (a b : nat * @RoadNode num) : Prop :=
  fst a = fst b /\ node_point (snd a) = node_point (snd b).

(** The actions logged while a machine drives to a field and works on it. *)
Definition is_plain (a : Action) : bool :=
  match a with
  | road_travel | field_start | working | capacity_full | emergency_road_travel => true
  | _ => false
  end.

(** Every [supply] is directly followed by a [supply_complete], and no
    [supply_complete] stands elsewhere. *)
Fixpoint supply_paired (l : list Action) : bool :=
  match l with
  | [] => true
  | supply :: l' =>
      match l' with
      | supply_complete :: l'' => supply_paired l''
      | _ => false
      end
  | supply_complete :: _ => false
  | _ :: l' => supply_paired l'
  end.

Definition is_supply {num} (p : @PathPoint num) : bool := Action_eqb (action p) supply.

(** What a machine has logged since its [start] point: plain points and
    supply stops at the base, each with its event. *)
Inductive logged {num} (supplyDuration : num) (base : @Point num)
    : list (@PathPoint num) -> list (@SupplyEvent num) -> Prop :=
| logged_nil : logged supplyDuration base [] []
| logged_plain ps evs p :
    logged supplyDuration base ps evs -> is_plain (action p) = true ->
    logged supplyDuration base (ps ++ [p]) evs
| logged_supply ps evs t t' :
    logged supplyDuration base ps evs ->
    logged supplyDuration base
      (ps ++ [mkPathPoint (x base) (y base) t supply;
              mkPathPoint (x base) (y base) t' supply_complete])
      (evs ++ [mkSupplyEvent t supplyDuration]).

(** A machine of the simulation: its identity and what it has logged. *)
Definition machine_logged {num} `{JsNumber num} (supplyDuration : num) (base : @Point num)
    (m : @MachineState num) : Prop :=
  exists rest,
    path m = mkPathPoint (x base) (y base) (of_Z 0) start :: rest
    /\ logged supplyDuration base rest (supplyEvents m).

(** A machine after the final return: the [return] point, if any, closes
    the path. *)
Definition machine_returned {num} `{JsNumber num} (supplyDuration : num) (base : @Point num)
    (m : @MachineState num) : Prop :=
  exists rest tail,
    path m = mkPathPoint (x base) (y base) (of_Z 0) start :: rest ++ tail
    /\ logged supplyDuration base rest (supplyEvents m)
    /\ (tail = [] \/ exists t, tail = [mkPathPoint (x base) (y base) t return_]).

(** Field states as the loop keeps them: the fields are those of the
    request, in order; a field is worked on only once those before it are
    completed; and the flag of a field that was worked on tells whether its
    fraction has reached 0.99. *)
Definition worked_in_order {num} `{JsNumber num} (fields : list (@Field num))
    (fieldStates : list (@FieldWorkState num)) : Prop :=
  map (@field num) fieldStates = fields
  /\ (forall i j fi fj,
        (i < j)%nat -> nth_error fieldStates i = Some fi -> nth_error fieldStates j = Some fj ->
        isCompleted fi = true \/ fj = initial_field (field fj))
  /\ Forall (fun fs =>
               fs = initial_field (field fs)
               \/ isCompleted fs = nleb (dec 99 100) (completedPercentage fs))
            fieldStates.

(** Small inputs the further properties are run on. *)
Module Example.

Local Open Scope float_scope.

(** One field of 10 by 10 at the origin, and a base station below it. *)
Definition one_field : list (@Field float) := [mkField 1 0 0 10 10].
Definition below : @Point float := mkPoint 0 (-10).

(** Two nodes ten apart; in [linked] each has the other as a connection. *)
Definition apart : list (@RoadNode float) :=
  [mkNode 0 0 [] (0, 0); mkNode 10 0 [] (10, 0)].
Definition linked : list (@RoadNode float) :=
  [mkNode 0 0 [1%nat] (0, 0); mkNode 10 0 [0%nat] (10, 0)].


(** The field of 100 by 80 left at 31 of its 32 points, and a machine of
    capacity 1 that waits at the base station (50, 40). *)
Definition nearly_done : list (@FieldWorkState float) :=
  [mkFieldState (mkField 1 0 0 100 80) 0.96875 false None [] None []].
Definition waiting : list (@MachineState float) := [initial_machine (mkPoint 50 40) 1 0].

End Example.

(** The progress of the fields: fraction and flag of each. *)
Definition progress {num} (fieldStates : list (@FieldWorkState num)) : list (num * bool) :=
  map (fun fs => (completedPercentage fs, isCompleted fs)) fieldStates.


(* ================================================================== *)
(** ** Notions for clocks, rows and remaining work *)

(** Adding zero a second time changes nothing. *)
Class ClockFacts {num : Type} (J : JsNumber num) : Prop := {
  add_zero_twice : forall a : num, ((a + of_Z 0) + of_Z 0)%js = (a + of_Z 0)%js
}.

(** A clock agrees with a path when the last point of the path was stamped
    with it: the clock is the timestamp [t] of that point, or [t + 0] (zero
    work time was added since).  A [capacity_full] point is stamped in
    another way and is left open. *)
Definition agrees {num} {J : JsNumber num} (clock : num) (l : list (@PathPoint num)) : Prop :=
  exists pre p,
    l = pre ++ [p]
    /\ (action p = capacity_full
        \/ clock = timestamp p
        \/ clock = (timestamp p + of_Z 0)%js).

Definition clock_synced {num} {J : JsNumber num} (m : @MachineState num) : Prop :=
  agrees (currentTime m) (path m).


(** A load that is a number. *)
Definition is_load (m : @MachineState float) : Prop := is_nan (currentCapacity m) = false.

(** The work that remains on a field, as [executeFieldWorkWithRoadNetwork]
    computes it. *)
Definition remainingWork {num} {J : JsNumber num} (fs : @FieldWorkState num) : num :=
  nmax (of_Z 0) (of_Z 1 - completedPercentage fs)%js.

(** Field states nobody has worked on, as far as their progress tells. *)
Definition untouched {num} {J : JsNumber num} (fields : list (@Field num))
    (fieldStates : list (@FieldWorkState num)) : Prop :=
  progress fieldStates = map (fun _ => (of_Z 0, false)) fields.

(** [node], at index [i], is the first of the nodes nearest to [p], in the
    distances the program computes: no node is nearer, and the nodes before
    it are farther. *)
Definition first_nearest {num} {J : JsNumber num} (roadNetwork : list (@RoadNode num))
    (p : @Point num) (i : nat) (node : @RoadNode num) : Prop :=
  nth_error roadNetwork i = Some node
  /\ forall j other, nth_error roadNetwork j = Some other ->
       (calculateDistance p (node_point other) <? calculateDistance p (node_point node))%js
       = false
       /\ ((j < i)%nat ->
           (calculateDistance p (node_point node) <? calculateDistance p (node_point other))%js
           = true).

(** The distances from [p] to the nodes are numbers. *)
Definition distances_known (p : @Point float) (roadNetwork : list (@RoadNode float)) : Prop :=
  Forall (fun n => is_nan (calculateDistance p (node_point n)) = false) roadNetwork.

(* ================================================================== *)
(** ** The order of the doubles *)

(** The place of a double in the order of the doubles: its class (the
    infinities, the negative and the positive numbers, zero), then exponent
    and mantissa; NaN has none. *)
Definition rank (s : spec_float) : option (Z * Z * Z) :=
  match s with
  | S754_nan => None
  | S754_infinity true => Some (-2, 0, 0)%Z
  | S754_finite true m e => Some (-1, - e, - Zpos m)%Z
  | S754_zero _ => Some (0, 0, 0)%Z
  | S754_finite false m e => Some (1, e, Zpos m)%Z
  | S754_infinity false => Some (2, 0, 0)%Z
  end.

Definition rank_of (a : float) : option (Z * Z * Z) := rank (Prim2SF a).

Definition belowb (a b : Z * Z * Z) : bool :=
  let '(a1, a2, a3) := a in
  let '(b1, b2, b3) := b in
  ((a1 <? b1) || ((a1 =? b1) && ((a2 <? b2) || ((a2 =? b2) && (a3 <? b3)))))%Z.

Definition sameb (a b : Z * Z * Z) : bool :=
  let '(a1, a2, a3) := a in
  let '(b1, b2, b3) := b in
  ((a1 =? b1) && (a2 =? b2) && (a3 =? b3))%Z.

(* ================================================================== *)
(** * Properties *)

#[export] Instance binary64_facts : JsFacts binary64.
Proof. split; vm_compute; reflexivity. Qed.

(* ------------------------------------------------------------------ *)
(** ** The path finder returns the straight line between the snapped nodes *)

Lemma In_combine_seq {A} (l : list A) (s i : nat) (a : A) :
  In (i, a) (combine (seq s (length l)) l) -> s <= i /\ nth_error l (i - s) = Some a.
Proof.
  revert s. induction l as [|b l IH]; intros s; simpl; [tauto|].
  intros [E|I].
  - inversion E; subst. rewrite Nat.sub_diag. split; [lia|reflexivity].
  - apply IH in I. destruct I as [L N]. split; [lia|].
    replace (i - s) with (S (i - S s)) by lia. exact N.
Qed.

Lemma nth_error_set_nth {A} (l : list A) i k (v a : A) :
  nth_error (set_nth l i v) k = Some a -> a = v \/ nth_error l k = Some a.
Proof.
  revert i k. induction l as [|h t IH]; intros i k; simpl.
  - destruct i; auto.
  - destruct i, k; simpl; auto.
    + intros [= ->]. auto.
    + apply IH.
Qed.

Section PathFinder.

Context {num : Type} {J : JsNumber num} {F : JsFacts J}.
Local Open Scope js_scope.

Lemma fold_closer_In (p : Point) (l : list (nat * RoadNode)) (a : nat * RoadNode) :
  In (fold_left (closer p) l a) (a :: l).
Proof.
  revert a. induction l as [|b l IH]; intros a; simpl.
  - now left.
  - destruct (IH (closer p a b)) as [E|I].
    + rewrite <- E. unfold closer. destruct (_ <? _); auto.
    + auto.
Qed.


Lemma nearest_node_Some (p : Point) (roadNetwork : list RoadNode) :
  roadNetwork <> [] -> exists n, nearest_node p roadNetwork = Some n.
Proof.
  unfold nearest_node, indexed. destruct roadNetwork as [|a l]; [congruence|].
  intros _. simpl. eauto.
Qed.

Lemma nearest_node_nth (p : Point) (roadNetwork : list RoadNode) i node :
  nearest_node p roadNetwork = Some (i, node) -> nth_error roadNetwork i = Some node.
Proof.
  unfold nearest_node. destruct (indexed roadNetwork) as [|a l] eqn:E; [discriminate|].
  intros [= Hf].
  pose proof (fold_closer_In p l a) as I. rewrite Hf, <- E in I.
  apply In_combine_seq in I. rewrite Nat.sub_0_r in I. tauto.
Qed.


Lemma get_distance_initial n i k :
  get_distance (set_nth (repeat POSITIVE_INFINITY n) i (of_Z 0)) k = POSITIVE_INFINITY.
Proof.
  unfold get_distance.
  destruct (nth_error _ k) as [d|] eqn:E; [|reflexivity].
  apply nth_error_set_nth in E. destruct E as [->|E].
  - unfold or_else. now rewrite zero_falsy.
  - apply nth_error_In, repeat_spec in E. subst. unfold or_else. now destruct (truthy _).
Qed.

Lemma select_current_none (ds : list num) (unv : list nat) :
  (forall k, get_distance ds k = POSITIVE_INFINITY) ->
  select_current ds unv = (None, POSITIVE_INFINITY).
Proof.
  intros Hd. unfold select_current.
  induction unv as [|u unv IH]; simpl; [reflexivity|].
  rewrite Hd, infinity_not_below. exact IH.
Qed.

(** The search never leaves its first iteration: the distance 0 of the start
    node is read as [0 || Infinity], so no node is ever selected. *)
Lemma dijkstra_loop_breaks roadNetwork endNode n i unv fuel :
  dijkstra_loop (S fuel) roadNetwork endNode
    (mkDijkstra (set_nth (repeat POSITIVE_INFINITY n) i (of_Z 0)) (repeat None n) unv)
  = Some (mkDijkstra (set_nth (repeat POSITIVE_INFINITY n) i (of_Z 0)) (repeat None n) unv).
Proof.
  simpl. destruct unv as [|u unv]; [reflexivity|].
  rewrite select_current_none by apply get_distance_initial. reflexivity.
Qed.

Theorem findShortestPath_straight (start_ end_ : Point) (roadNetwork : list RoadNode) :
  findShortestPath start_ end_ roadNetwork =
  (s <- nearest_node start_ roadNetwork ;;
   e <- nearest_node end_ roadNetwork ;;
   Some (if (n_x (snd e) === n_x (snd s)) && (n_y (snd e) === n_y (snd s))
         then [node_point (snd e)]
         else [node_point (snd s); node_point (snd e)])).
Proof.
  unfold findShortestPath.
  destruct (nearest_node start_ roadNetwork) as [[si s]|] eqn:Es; [|reflexivity].
  destruct (nearest_node end_ roadNetwork) as [[ei e]|] eqn:Ee; [|reflexivity].
  pose proof (nearest_node_nth _ _ Ee) as Ne.
  destruct roadNetwork as [|n0 rest] eqn:En; [discriminate|]. rewrite <- En in *.
  assert (length roadNetwork = S (length rest)) as -> by (subst; reflexivity).
  rewrite dijkstra_loop_breaks. cbn [previous fst snd].
  cbn [reconstruct]. rewrite Ne.
  destruct (nth_error (repeat None (S (length rest))) ei) as [[p|]|] eqn:Ep.
  - apply nth_error_In, repeat_spec in Ep. discriminate.
  - cbn. now destruct (_ && _).
  - cbn. now destruct (_ && _).
Qed.

End PathFinder.

(* ------------------------------------------------------------------ *)
(** ** Fuel *)

Section Fuel.

Context {num : Type} {J : JsNumber num}.

(** A computation that returned keeps its result when given more fuel. *)

Lemma grid_column_mono fuel fuel' fields gx gy maxY (st st' : Builder) :
  grid_column fuel fields gx gy maxY st = Some st' -> (fuel <= fuel')%nat ->
  grid_column fuel' fields gx gy maxY st = Some st'.
Proof.
  revert fuel' gy st. induction fuel as [|fuel IH]; intros fuel' gy st; simpl; [discriminate|].
  intros E L. destruct fuel' as [|fuel']; [lia|]. simpl.
  destruct (nleb gy maxY); [|exact E].
  apply IH; [exact E|lia].
Qed.

Lemma grid_rows_mono fuel fuel' fy fy' fields gx maxX minY maxY (st st' : Builder) :
  grid_rows fuel fy fields gx maxX minY maxY st = Some st' ->
  (fuel <= fuel')%nat -> (fy <= fy')%nat ->
  grid_rows fuel' fy' fields gx maxX minY maxY st = Some st'.
Proof.
  revert fuel' gx st. induction fuel as [|fuel IH]; intros fuel' gx st; simpl; [discriminate|].
  intros E L Ly. destruct fuel' as [|fuel']; [lia|]. simpl.
  destruct (nleb gx maxX); [|exact E].
  destruct (grid_column fy fields gx minY maxY st) as [st1|] eqn:Ec; [|discriminate].
  erewrite grid_column_mono by eauto.
  apply IH; [exact E|lia|exact Ly].
Qed.

Lemma generateFieldRoadNetwork_mono fuel fuel' fields (base : Point) nodes :
  generateFieldRoadNetwork fuel fields base = Some nodes -> (fuel <= fuel')%nat ->
  generateFieldRoadNetwork fuel' fields base = Some nodes.
Proof.
  unfold generateFieldRoadNetwork. intros E L.
  destruct (grid_rows fuel fuel _ _ _ _ _ _) as [st|] eqn:Eg; [|discriminate].
  erewrite grid_rows_mono by eauto. exact E.
Qed.

Lemma work_rows_mono fuel fuel' (f : Field) sp totalRows startRow endRow i path path' :
  work_rows fuel f sp totalRows startRow endRow i path = Some path' -> (fuel <= fuel')%nat ->
  work_rows fuel' f sp totalRows startRow endRow i path = Some path'.
Proof.
  revert fuel' i path. induction fuel as [|fuel IH]; intros fuel' i path; simpl; [discriminate|].
  intros E L. destruct fuel' as [|fuel']; [lia|]. simpl.
  destruct (nltb i endRow); [|exact E].
  apply IH; [exact E|lia].
Qed.

Lemma generateContinuousFieldWorkPath_mono fuel fuel' (f : Field) sp wp path :
  generateContinuousFieldWorkPath fuel f sp wp = Some path -> (fuel <= fuel')%nat ->
  generateContinuousFieldWorkPath fuel' f sp wp = Some path.
Proof. unfold generateContinuousFieldWorkPath. apply work_rows_mono. Qed.

Lemma executeFieldWork_mono fuel fuel' (m : MachineState) fs cap net base r :
  executeFieldWorkWithRoadNetwork fuel m fs cap net base = Some r -> (fuel <= fuel')%nat ->
  executeFieldWorkWithRoadNetwork fuel' m fs cap net base = Some r.
Proof.
  unfold executeFieldWorkWithRoadNetwork. intros E L.
  destruct (nleb _ _); [exact E|].
  destruct (findShortestPath _ _ _) as [tp|]; [|discriminate].
  destruct (generateContinuousFieldWorkPath fuel _ _ _) as [wp|] eqn:Ew; [|discriminate].
  erewrite generateContinuousFieldWorkPath_mono by eauto. exact E.
Qed.

Lemma machine_turn_mono fuel fuel' cap sd net base (m : MachineState) af r :
  machine_turn fuel cap sd net base m af = Some r -> (fuel <= fuel')%nat ->
  machine_turn fuel' cap sd net base m af = Some r.
Proof.
  unfold machine_turn. intros E L.
  destruct (resupply _ _ _ _ _) as [m1|]; [|discriminate].
  destruct (executeFieldWorkWithRoadNetwork fuel _ _ _ _ _) as [[m2 w]|] eqn:Ew; [|discriminate].
  erewrite executeFieldWork_mono by eauto. exact E.
Qed.

Lemma for_machines_mono fuel fuel' cap sd net base now (ms : list MachineState) fss r :
  for_machines fuel cap sd net base now ms fss = Some r -> (fuel <= fuel')%nat ->
  for_machines fuel' cap sd net base now ms fss = Some r.
Proof.
  intros E L. revert fss r E. induction ms as [|m ms IH]; intros fss r; simpl; [auto|].
  destruct (nltb now (currentTime m)).
  - destruct (for_machines fuel _ _ _ _ _ ms fss) as [[ms1 fss1]|] eqn:Ef; [|discriminate].
    now rewrite (IH _ _ Ef).
  - destruct (find_available fss) as [[k af]|]; [|auto].
    destruct (machine_turn fuel _ _ _ _ _ _) as [[m1 af1]|] eqn:Et; [|discriminate].
    erewrite machine_turn_mono by eauto.
    destruct (for_machines fuel _ _ _ _ _ ms _) as [[ms1 fss1]|] eqn:Ef; [|discriminate].
    now rewrite (IH _ _ Ef).
Qed.

Lemma schedule_loop_mono ticks ticks' fuel fuel' cap sd net base now
    (ms : list MachineState) fss r :
  schedule_loop ticks fuel cap sd net base now ms fss = Some r ->
  (ticks <= ticks')%nat -> (fuel <= fuel')%nat ->
  schedule_loop ticks' fuel' cap sd net base now ms fss = Some r.
Proof.
  revert ticks' now ms fss.
  induction ticks as [|ticks IH]; intros ticks' now ms fss; simpl; [discriminate|].
  intros E Lt L. destruct ticks' as [|ticks']; [lia|]. simpl.
  destruct (_ && _); [|exact E].
  destruct (for_machines fuel _ _ _ _ _ _ _) as [[ms1 fss1]|] eqn:Ef; [|discriminate].
  erewrite for_machines_mono by eauto.
  apply IH; [exact E|lia|exact L].
Qed.

Lemma simulate_mono ticks ticks' fuel fuel' (data : ScheduleRequest) r :
  simulate ticks fuel data = Some r -> (ticks <= ticks')%nat -> (fuel <= fuel')%nat ->
  simulate ticks' fuel' data = Some r.
Proof.
  unfold simulate. intros E Lt L.
  destruct (generateFieldRoadNetwork fuel _ _) as [net|] eqn:En; [|discriminate].
  erewrite generateFieldRoadNetwork_mono by eauto.
  destruct (schedule_loop ticks fuel _ _ _ _ _ _ _) as [[ms fss]|] eqn:Es; [|discriminate].
  erewrite schedule_loop_mono by eauto. exact E.
Qed.

Lemma generateSchedule_mono ticks ticks' fuel fuel' (data : ScheduleRequest) r :
  generateScheduleWithRoadNetwork ticks fuel data = Some r ->
  (ticks <= ticks')%nat -> (fuel <= fuel')%nat ->
  generateScheduleWithRoadNetwork ticks' fuel' data = Some r.
Proof.
  unfold generateScheduleWithRoadNetwork. intros E Lt L.
  destruct (fields data); [exact E|].
  destruct (simulate ticks fuel data) as [[[net ms] fss]|] eqn:Es; [|discriminate].
  erewrite simulate_mono by eauto. exact E.
Qed.

(** Hence the result does not depend on the fuel. *)
Lemma generateSchedule_fuel_irrelevant t1 f1 t2 f2 (data : ScheduleRequest) r1 r2 :
  generateScheduleWithRoadNetwork t1 f1 data = Some r1 ->
  generateScheduleWithRoadNetwork t2 f2 data = Some r2 -> r1 = r2.
Proof.
  intros E1 E2.
  apply (generateSchedule_mono (ticks' := Nat.max t1 t2) (fuel' := Nat.max f1 f2)) in E1; [|lia|lia].
  apply (generateSchedule_mono (ticks' := Nat.max t1 t2) (fuel' := Nat.max f1 f2)) in E2; [|lia|lia].
  congruence.
Qed.

End Fuel.

(* ================================================================== *)
(** ** The single-field scenario with half a capacity *)

Lemma single_field_half_run :
  option_map Scenario.summary
    (generateScheduleWithRoadNetwork 481 100 (Scenario.single_field 0.5))
  = Some (5.8860428609194857%float, 1%float, 2, [2], [2], [353.16257165516913%float]).
Proof. vm_cast_no_check (eq_refl (Some (5.8860428609194857%float, 1%float, 2, [2], [2], [353.16257165516913%float]))). Qed.

Lemma single_field_half_result :
  exists r,
    generateScheduleWithRoadNetwork 481 100 (Scenario.single_field 0.5) = Some r
    /\ Scenario.summary r
       = (5.8860428609194857%float, 1%float, 2, [2], [2], [353.16257165516913%float]).
Proof.
  pose proof single_field_half_run as E.
  destruct (generateScheduleWithRoadNetwork 481 100 _) as [r|]; [|discriminate].
  exists r. split; [reflexivity|]. simpl in E. congruence.
Qed.

(** C3, as the code runs it.  With capacity 0.5 the machine fills up twice
    and is resupplied twice before the field completes: the result counts two
    supply events, whatever fuel the run was given. *)
Theorem C3_two_resupply_cycles :
  exists r,
    generateScheduleWithRoadNetwork 481 100 (Scenario.single_field 0.5) = Some r
    /\ Scenario.count_action capacity_full r = [2]
    /\ Scenario.count_action supply r = [2]
    /\ totalSupplyEvents r = 2
    /\ efficiency r = 1%float
    /\ forall ticks fuel r',
         generateScheduleWithRoadNetwork ticks fuel (Scenario.single_field 0.5) = Some r' ->
         r' = r.
Proof.
  destruct single_field_half_result as (r & E & S).
  exists r. unfold Scenario.summary in S. injection S as S1 S2 S3 S4 S5 S6.
  repeat split; auto.
  intros ticks fuel r' E'. eapply generateSchedule_fuel_irrelevant; eassumption.
Qed.

(** C3 as stated fails: the run counts two supply events, not one. *)
Lemma C3_not_one_supply_event :
  exists r,
    generateScheduleWithRoadNetwork 481 100 (Scenario.single_field 0.5) = Some r
    /\ totalSupplyEvents r = 2
    /\ totalSupplyEvents r <> 1
    /\ Scenario.count_action capacity_full r <> [1].
Proof.
  destruct single_field_half_result as (r & E & S).
  exists r. unfold Scenario.summary in S. injection S as S1 S2 S3 S4 S5 S6.
  rewrite S3, S4. repeat split; auto; discriminate.
Qed.

(** C1 as stated fails: in the single-field run the machine's last timestamp
    is 353.16..., a 3600th of which is 0.098..., while [totalTime] is 5.886...,
    its 60th. *)
Lemma C1_total_time_is_not_hours :
  exists r,
    generateScheduleWithRoadNetwork 481 100 (Scenario.single_field 0.5) = Some r
    /\ Scenario.final_timestamps r = [353.16257165516913%float]
    /\ totalTime r = 5.8860428609194857%float
    /\ (max_list (Scenario.final_timestamps r) / of_Z 3600)%js = 0.098100714348658094%float
    /\ (totalTime r === max_list (Scenario.final_timestamps r) / of_Z 3600)%js = false.
Proof.
  destruct single_field_half_result as (r & E & S).
  exists r. unfold Scenario.summary in S. injection S as S1 S2 S3 S4 S5 S6.
  rewrite S6, S1. repeat split; auto.
Qed.

(* ================================================================== *)
(** ** Empty field list *)

(** C9.  A request without fields gets the zero-valued result, with the
    base station rounded componentwise, and no error. *)
Theorem C9_no_fields_zero_result {num} {J : JsNumber num}
    (ticks fuel : nat) (data : ScheduleRequest) :
  fields data = [] ->
  generateScheduleWithRoadNetwork ticks fuel data
  = Some (mkResult [] (of_Z 0) (of_Z 0) 0
            (mkPoint (nround (x (req_baseStation data))) (nround (y (req_baseStation data))))
            []).
Proof.
  intros E. unfold generateScheduleWithRoadNetwork. rewrite E. reflexivity.
Qed.

Lemma C9_no_fields_zero_result_witness :
  generateScheduleWithRoadNetwork 0 0
    (mkRequest 3 [] (mkPoint 12.5 (-7.25)) (mkParameters 100 80 0 1 30))%float
  = Some (mkResult [] 0 0 0 (mkPoint 13 (-7)) [])%float.
Proof.
  exact (@C9_no_fields_zero_result float binary64 0 0
           (mkRequest 3 [] (mkPoint 12.5 (-7.25)) (mkParameters 100 80 0 1 30))%float
           eq_refl).
Defined.

(* ================================================================== *)
(** ** Road network nodes and overlapping fields *)

Lemma overlapping_network_run :
  option_map (fun roadNetwork => (length roadNetwork, nth_error (map (fun n => node_point n) roadNetwork) 80))
    (generateFieldRoadNetwork 100 Scenario.overlapping (mkPoint (-10) (-10))%float)
  = Some (81, Some (mkPoint 10 10)%float).
Proof. vm_cast_no_check (eq_refl (Some (81, Some (mkPoint 10 10)%float))). Qed.

(** C2 at two overlapping fields: the corner (10, 10) of the second field is
    a node of the network, and it lies strictly inside the first field. *)
Theorem C2_corner_inside_other_field :
  exists roadNetwork node,
    generateFieldRoadNetwork 100 Scenario.overlapping (mkPoint (-10) (-10))%float
    = Some roadNetwork
    /\ In node roadNetwork
    /\ node_point node = (mkPoint 10 10)%float
    /\ insideField (node_point node) (mkField 1 0 0 20 20)%float = true
    /\ isPointInsideAnyField (node_point node) Scenario.overlapping = true.
Proof.
  pose proof overlapping_network_run as R.
  destruct (generateFieldRoadNetwork 100 Scenario.overlapping _) as [net|]; [|discriminate].
  cbn [option_map] in R.
  assert (nth_error (map (fun n => node_point n) net) 80 = Some (mkPoint 10 10)%float) as R'
    by congruence.
  clear R. rename R' into R. rewrite nth_error_map in R.
  destruct (nth_error net 80) as [node|] eqn:N; [|discriminate].
  cbn [option_map] in R.
  assert (node_point node = (mkPoint 10 10)%float) as P by congruence.
  exists net, node. repeat split.
  - eapply nth_error_In; eassumption.
  - exact P.
  - rewrite P. reflexivity.
  - rewrite P. reflexivity.
Qed.

(* ================================================================== *)
(** ** Efficiency with no machine *)

Lemma no_machine_run :
  option_map (fun s => match s with (_, ms, fss) => (length ms, map (fun fs => isCompleted fs) fss) end)
    (simulate 481 100 Scenario.no_machine) = Some (0, [false])
  /\ option_map (fun r => (totalTime r, efficiency r))
       (generateScheduleWithRoadNetwork 481 100 Scenario.no_machine)
     = Some (neg_infinity, nan).
Proof.
  split.
  - vm_cast_no_check (eq_refl (Some (0, [false]))).
  - vm_cast_no_check (eq_refl (Some (neg_infinity, nan))).
Qed.

Lemma no_machine_unpack
    (s : option (list (@RoadNode float) * list (@MachineState float) * list (@FieldWorkState float)))
    (o : option (@ScheduleResult float)) :
  option_map (fun s => match s with (_, ms, fss) => (length ms, map (fun fs => isCompleted fs) fss) end) s
  = Some (0, [false]) ->
  option_map (fun r => (totalTime r, efficiency r)) o = Some (neg_infinity, nan) ->
  exists roadNetwork fieldState r,
    s = Some (roadNetwork, [], [fieldState])
    /\ isCompleted fieldState = false
    /\ o = Some r
    /\ efficiency r = nan.
Proof.
  destruct s as [[[net ms] fss]|]; [|discriminate].
  destruct o as [r|]; [|discriminate].
  cbn [option_map]. intros S R.
  assert (length ms = 0) as L by congruence.
  assert (map (fun fs => isCompleted fs) fss = [false]) as M by congruence.
  assert (efficiency r = nan) as N by congruence.
  destruct ms; [|discriminate]. destruct fss as [|fs [|? ?]]; try discriminate.
  exists net, fs, r. repeat split; auto. cbn in M. congruence.
Qed.

(** C4 at a request without machines: the field is never completed, so the
    completion rate is 0, and the score is 0 * NaN, which is NaN and not 0. *)
Lemma C4_no_machine_efficiency_is_nan :
  exists roadNetwork fieldState r,
    simulate 481 100 Scenario.no_machine = Some (roadNetwork, [], [fieldState])
    /\ isCompleted fieldState = false
    /\ generateScheduleWithRoadNetwork 481 100 Scenario.no_machine = Some r
    /\ efficiency r = nan.
Proof.
  destruct no_machine_run as [S R]. exact (no_machine_unpack _ _ S R).
Qed.




(* ================================================================== *)
(** ** Shortest path finder: what is returned *)



(* ================================================================== *)
(** ** Coverage path: the first point *)

Section Coverage.

Context {num : Type} {J : JsNumber num}.
Local Open Scope js_scope.


(** A counter that is below [endRow] and that [i++] does not change never
    leaves the loop. *)
Lemma work_rows_stuck fuel (f : @Field num) sp totalRows startRow endRow i path :
  (i <? endRow) = true -> i + of_Z 1 = i ->
  work_rows fuel f sp totalRows startRow endRow i path = None.
Proof.
  intros L E. revert path. induction fuel as [|fuel IH]; intros path; cbn [work_rows];
    [reflexivity|].
  rewrite L, E. apply IH.
Qed.


End Coverage.


(** C6: a positive work fraction that the sum with the start fraction absorbs
    gives no point either. *)
Lemma C6_tiny_work_no_point :
  (0 <? 1e-300)%float = true
  /\ (0.5 + 1e-300 <=? 1)%float = true
  /\ generateContinuousFieldWorkPath 100 (mkField 1 0 0 100 80)%float 0.5%float 1e-300%float
     = Some [].
Proof. repeat split. Qed.

(** C6: rows counted from 2^53 on are never left, so no sequence is returned. *)
Lemma C6_rows_from_2_53_no_result :
  forall fuel,
    generateContinuousFieldWorkPath fuel (mkField 1 0 0 100 1e20)%float 0.5%float 0.25%float
    = None.
Proof.
  intros fuel. unfold generateContinuousFieldWorkPath.
  apply work_rows_stuck; vm_compute; reflexivity.
Qed.

Section Clock.

Context {num : Type} {J : JsNumber num} {F : JsFacts J}.

(** Once the clock shows [tick k], [481 - k] evaluations of the loop
    condition are enough, whatever the state. *)
Lemma schedule_loop_from_tick k ticks fuel cap sd net base (ms : list MachineState) fss :
  k <= 480 -> 481 - k <= ticks ->
  schedule_loop ticks fuel cap sd net base (tick k) ms fss
  = schedule_loop (481 - k) fuel cap sd net base (tick k) ms fss.
Proof.
  intros Hk. remember (480 - k) as d eqn:Ed.
  revert k Hk Ed ticks ms fss. induction d as [|d IH]; intros k Hk Ed ticks ms fss Ht.
  - assert (k = 480) as -> by lia. change (481 - 480) with 1.
    destruct ticks as [|ticks]; [lia|]. cbn [schedule_loop].
    now rewrite clock_ceiling.
  - replace (481 - k) with (S (481 - S k)) by lia.
    destruct ticks as [|ticks]; [lia|]. cbn [schedule_loop].
    destruct (_ && _); [|reflexivity].
    destruct (for_machines _ _ _ _ _ _ _ _) as [[ms1 fss1]|]; [|reflexivity].
    change (nadd (tick k) (of_Z 60)) with (tick (S k)).
    apply IH; lia.
Qed.

Lemma schedule_loop_481 ticks fuel cap sd net base (ms : list MachineState) fss :
  481 <= ticks ->
  schedule_loop ticks fuel cap sd net base (of_Z 0) ms fss
  = schedule_loop 481 fuel cap sd net base (of_Z 0) ms fss.
Proof.
  intros. apply (@schedule_loop_from_tick 0); [lia|simpl; lia].
Qed.

End Clock.

Lemma find_available_spec {num} (fss : list (@FieldWorkState num)) k af :
  find_available fss = Some (k, af) -> nth_error fss k = Some af /\ isCompleted af = false.
Proof.
  revert k. induction fss as [|fs fss IH]; intros k; simpl; [discriminate|].
  destruct (isCompleted fs) eqn:E; simpl.
  - destruct (find_available fss) as [[i a]|]; [|discriminate].
    intros [= <- <-]. apply IH. reflexivity.
  - intros [= <- <-]. auto.
Qed.

Lemma Forall_set_nth {A} (P : A -> Prop) (l : list A) k v :
  Forall P l -> P v -> Forall P (set_nth l k v).
Proof.
  intros Hl Hv. revert k. induction Hl as [|a l Ha Hl' IH]; intros k; simpl.
  - destruct k; constructor.
  - destruct k; constructor; auto.
Qed.

(* ------------------------------------------------------------------ *)
(** ** The states of the loop are reachable states *)

Section Reach.

Context {num : Type} {J : JsNumber num}.

Lemma set_nth_middle {A} (pre : list A) a b rest :
  set_nth (pre ++ a :: rest) (length pre) b = pre ++ b :: rest.
Proof. induction pre as [|p pre IH]; simpl; [reflexivity|]. now rewrite IH. Qed.

Lemma nth_error_middle {A} (pre : list A) a rest :
  nth_error (pre ++ a :: rest) (length pre) = Some a.
Proof. induction pre as [|p pre IH]; simpl; auto. Qed.

Lemma for_machines_reach fuel cap sd net base init now pre
    (ms ms' : list (@MachineState num)) fss fss' :
  reach fuel cap sd net base init (pre ++ ms, fss) ->
  for_machines fuel cap sd net base now ms fss = Some (ms', fss') ->
  reach fuel cap sd net base init (pre ++ ms', fss').
Proof.
  revert pre ms' fss fss'. induction ms as [|m ms IH]; intros pre ms' fss fss' R;
    cbn [for_machines].
  - now intros [= <- <-].
  - destruct (nltb now (currentTime m)).
    + destruct (for_machines _ _ _ _ _ _ ms fss) as [[ms1 fss1]|] eqn:E; [|discriminate].
      intros [= <- <-].
      replace (pre ++ m :: ms1) with ((pre ++ [m]) ++ ms1) by now rewrite <- app_assoc.
      eapply IH; [|exact E]. now rewrite <- app_assoc.
    + destruct (find_available fss) as [[k af]|] eqn:Ef; [|now intros [= <- <-]].
      destruct (machine_turn _ _ _ _ _ m af) as [[m1 af1]|] eqn:Et; [|discriminate].
      destruct (for_machines _ _ _ _ _ _ ms _) as [[ms1 fss1]|] eqn:E; [|discriminate].
      intros [= <- <-].
      replace (pre ++ m1 :: ms1) with ((pre ++ [m1]) ++ ms1) by now rewrite <- app_assoc.
      eapply IH; [|exact E]. rewrite <- app_assoc. cbn [app].
      rewrite <- (set_nth_middle pre m m1 ms).
      eapply reach_turn; eauto. apply nth_error_middle.
Qed.

Lemma schedule_loop_reach ticks fuel cap sd net base init now
    (ms ms' : list (@MachineState num)) fss fss' :
  reach fuel cap sd net base init (ms, fss) ->
  schedule_loop ticks fuel cap sd net base now ms fss = Some (ms', fss') ->
  reach fuel cap sd net base init (ms', fss').
Proof.
  revert now ms fss. induction ticks as [|ticks IH]; intros now ms fss R;
    cbn [schedule_loop]; [discriminate|].
  destruct (_ && _); [|now intros [= <- <-]].
  destruct (for_machines _ _ _ _ _ _ _ _) as [[ms1 fss1]|] eqn:E; [|discriminate].
  apply IH. exact (@for_machines_reach fuel cap sd net base init now [] ms ms1 fss fss1 R E).
Qed.

Lemma set_nth_other {A} (l : list A) k v i :
  i <> k -> nth_error (set_nth l k v) i = nth_error l i.
Proof.
  revert k i. induction l as [|a l IH]; intros k i N; simpl.
  - reflexivity.
  - destruct k, i; simpl; auto; congruence.
Qed.

End Reach.

(* ------------------------------------------------------------------ *)
(** ** The outer loop stops after 480 ticks *)

Section Clock481.

Context {num : Type} {J : JsNumber num} {F : JsFacts J}.

Lemma simulate_481 ticks fuel (data : @ScheduleRequest num) :
  481 <= ticks -> simulate ticks fuel data = simulate 481 fuel data.
Proof.
  intros H. unfold simulate.
  destruct (generateFieldRoadNetwork _ _ _); [|reflexivity].
  now rewrite (schedule_loop_481 (F := F)) by exact H.
Qed.

Lemma generateSchedule_481 ticks fuel (data : @ScheduleRequest num) :
  481 <= ticks ->
  generateScheduleWithRoadNetwork ticks fuel data
  = generateScheduleWithRoadNetwork 481 fuel data.
Proof.
  intros H. unfold generateScheduleWithRoadNetwork.
  destruct (fields data); [reflexivity|]. now rewrite simulate_481 by exact H.
Qed.

End Clock481.

(* ================================================================== *)
(** ** Runs on binary64 in which rounding shows *)

Lemma nine_rows_run :
  option_map (fun s => match s with
                       | (_, ms, fss) =>
                           (length ms, map (fun fs => (completedPercentage fs, isCompleted fs)) fss)
                       end)
    (simulate 481 100 Scenario.nine_rows)
  = Some (1, [(1.0000000000000002%float, true)]).
Proof. vm_cast_no_check (eq_refl (Some (1, [(1.0000000000000002%float, true)]))). Qed.

Lemma nine_rows_unpack
    (s : option (list (@RoadNode float) * list (@MachineState float)
                 * list (@FieldWorkState float))) :
  option_map (fun s => match s with
                       | (_, ms, fss) =>
                           (length ms, map (fun fs => (completedPercentage fs, isCompleted fs)) fss)
                       end) s
  = Some (1, [(1.0000000000000002%float, true)]) ->
  exists roadNetwork ms fieldState,
    s = Some (roadNetwork, ms, [fieldState])
    /\ completedPercentage fieldState = 1.0000000000000002%float.
Proof.
  destruct s as [[[net ms] fss]|]; [|discriminate]. cbn [option_map]. intros E.
  assert (map (fun fs => (completedPercentage fs, isCompleted fs)) fss
          = [(1.0000000000000002%float, true)]) as M by congruence.
  destruct fss as [|fs [|? ?]]; try discriminate. cbn [map] in M.
  exists net, ms, fs. split; [reflexivity|congruence].
Qed.

(** C7 at a field of nine rows worked by a machine of capacity 1: eighteen
    additions of 1/18 leave the field with a completed-fraction just above
    1. *)
Lemma C7_fraction_above_one :
  exists roadNetwork ms fieldState,
    simulate 481 100 Scenario.nine_rows = Some (roadNetwork, ms, [fieldState])
    /\ completedPercentage fieldState = 1.0000000000000002%float
    /\ (completedPercentage fieldState <=? of_Z 1)%js = false
    /\ ~ in_unit_interval (completedPercentage fieldState).
Proof.
  destruct (nine_rows_unpack _ nine_rows_run) as (net & ms & fs & E & C).
  exists net, ms, fs. rewrite C. repeat split; auto.
  intros [_ H]. discriminate H.
Qed.

Lemma base_on_row_run :
  option_map (fun r => map (fun m => map (fun p => (timestamp p, action p))
                                      (firstn 2 (skipn 5 (r_path m))))
                           (machines r))
    (generateScheduleWithRoadNetwork 481 100 Scenario.base_on_row)
  = Some [[(25.5%float, capacity_full); (25.499999999999996%float, supply)]].
Proof.
  vm_cast_no_check
    (eq_refl (Some [[(25.5%float, capacity_full); (25.499999999999996%float, supply)]])).
Qed.

Lemma base_on_row_unpack (o : option (@ScheduleResult float)) :
  option_map (fun r => map (fun m => map (fun p => (timestamp p, action p))
                                      (firstn 2 (skipn 5 (r_path m))))
                           (machines r)) o
  = Some [[(25.5%float, capacity_full); (25.499999999999996%float, supply)]] ->
  exists r route p q,
    o = Some r /\ machines r = [route]
    /\ nth_error (r_path route) 5 = Some p /\ nth_error (r_path route) 6 = Some q
    /\ (timestamp p, action p) = (25.5%float, capacity_full)
    /\ (timestamp q, action q) = (25.499999999999996%float, supply).
Proof.
  destruct o as [r|]; [|discriminate]. cbn [option_map]. intros E.
  injection E as M.
  destruct (machines r) as [|route [|? ?]] eqn:Er; try discriminate. cbn [map] in M.
  injection M as M'.
  destruct (r_path route) as [|p0 [|p1 [|p2 [|p3 [|p4 [|p [|q rest]]]]]]] eqn:Ep;
    cbn [skipn firstn map] in M'; try discriminate.
  exists r, route, p, q. rewrite Ep.
  pose proof (f_equal (fun l => nth_error l 0) M') as Hp.
  pose proof (f_equal (fun l => nth_error l 1) M') as Hq.
  cbn [nth_error] in Hp, Hq.
  repeat split; try reflexivity; congruence.
Qed.

(** C10 at a base station on a row of the field: [capacity_full] is logged
    at (t + w) + d and the supply that follows at t + (w + d), which rounds
    lower. *)
Lemma C10_timestamp_goes_down :
  exists r route p q,
    generateScheduleWithRoadNetwork 481 100 Scenario.base_on_row = Some r
    /\ machines r = [route]
    /\ nth_error (r_path route) 5 = Some p /\ nth_error (r_path route) 6 = Some q
    /\ (timestamp p, action p) = (25.5%float, capacity_full)
    /\ (timestamp q, action q) = (25.499999999999996%float, supply)
    /\ ~ nondecreasing (r_path route).
Proof.
  destruct (base_on_row_unpack _ base_on_row_run) as (r & route & p & q & E & M & P & Q & Tp & Tq).
  exists r, route, p, q. repeat split; auto.
  intros N. specialize (N 5 p q P Q).
  injection Tp as Hp _. injection Tq as Hq _. rewrite Hp, Hq in N. discriminate N.
Qed.

Section Stuck.

Context {num : Type} {J : JsNumber num}.

(** A grid whose abscissa does not move never leaves the loop over [x]. *)
Lemma grid_rows_stuck fuel fuel_y fields (gx maxX minY maxY : num) (st : Builder) :
  (gx <=? maxX)%js = true -> (gx + roadSpacing)%js = gx ->
  grid_rows fuel fuel_y fields gx maxX minY maxY st = None.
Proof.
  intros L E. revert st. induction fuel as [|fuel IH]; intros st; cbn [grid_rows]; [reflexivity|].
  rewrite L. destruct (grid_column _ _ _ _ _ _); [|reflexivity]. rewrite E. apply IH.
Qed.

End Stuck.

(** C8 at a field at the abscissa 1e20: the step of 10 is absorbed, the loop
    over [x] of the network builder never ends, and no result is produced,
    whatever the fuel. *)
Lemma C8_no_result_far_away :
  ~ exists ticks fuel r,
      generateScheduleWithRoadNetwork ticks fuel Scenario.far_away = Some r.
Proof.
  intros (ticks & fuel & r & E).
  unfold generateScheduleWithRoadNetwork, simulate, generateFieldRoadNetwork in E.
  cbn [fields Scenario.far_away] in E.
  rewrite grid_rows_stuck in E; [discriminate| |]; vm_compute; reflexivity.
Qed.

(* ================================================================== *)
(** * Further properties *)

#[export] Instance binary64_keys : KeyFacts binary64.
Proof.
  split. intros a. cbn. unfold Binary64.key_eqb, is_nan.
  destruct (a =? a)%float; reflexivity.
Qed.

Section Network.

Context {num : Type} {J : JsNumber num}.

Lemma push_node_sound fields a b (st : @Builder num) :
  builder_sound fields st -> outside_or_corner fields (mkPoint a b) ->
  builder_sound fields (push_node a b st).
Proof.
  intros [Hn Hm] Ho. unfold push_node. split; cbn [nodes nodeMap].
  - apply Forall_app. split; [exact Hn|]. constructor; [|constructor].
    cbn. auto.
  - rewrite Hm, map_app. reflexivity.
Qed.

Lemma grid_column_sound fuel fields gx gy maxY (st st' : @Builder num) :
  builder_sound fields st ->
  grid_column fuel fields gx gy maxY st = Some st' -> builder_sound fields st'.
Proof.
  revert gy st. induction fuel as [|fuel IH]; intros gy st Hs; cbn [grid_column]; [discriminate|].
  destruct (nleb gy maxY); [|intros E; injection E as <-; exact Hs].
  apply IH.
  destruct (isPointInsideAnyField (mkPoint gx gy) fields) eqn:I; cbn [negb]; [exact Hs|].
  apply push_node_sound; [exact Hs|]. left. exact I.
Qed.

Lemma grid_rows_sound fuel fuel_y fields gx maxX minY maxY (st st' : @Builder num) :
  builder_sound fields st ->
  grid_rows fuel fuel_y fields gx maxX minY maxY st = Some st' -> builder_sound fields st'.
Proof.
  revert gx st. induction fuel as [|fuel IH]; intros gx st Hs; cbn [grid_rows]; [discriminate|].
  destruct (nleb gx maxX); [|intros E; injection E as <-; exact Hs].
  destruct (grid_column fuel_y fields gx minY maxY st) as [st1|] eqn:C; [|discriminate].
  apply IH. eapply grid_column_sound; eassumption.
Qed.

Lemma add_base_sound fields base (st : @Builder num) :
  builder_sound fields st -> builder_sound fields (add_base fields base st).
Proof.
  intros Hs. unfold add_base.
  destruct (isPointInsideAnyField base fields) eqn:I; cbn [negb]; [exact Hs|].
  destruct (map_has _ _); cbn [negb]; [exact Hs|].
  apply push_node_sound; [exact Hs|]. left. destruct base; exact I.
Qed.

Lemma add_corner_sound fields (st : @Builder num) c :
  builder_sound fields st -> (exists f, In f fields /\ In c (corners f)) ->
  builder_sound fields (add_corner st c).
Proof.
  intros Hs Hc. unfold add_corner. destruct (map_has _ _); cbn [negb]; [exact Hs|].
  apply push_node_sound; [exact Hs|]. right. destruct c; exact Hc.
Qed.

Lemma add_corner_list_sound fields cs (st : @Builder num) :
  builder_sound fields st ->
  (forall c, In c cs -> exists f, In f fields /\ In c (corners f)) ->
  builder_sound fields (fold_left add_corner cs st).
Proof.
  revert st. induction cs as [|c cs IH]; intros st Hs Hc; cbn [fold_left]; [exact Hs|].
  apply IH.
  - apply add_corner_sound; [exact Hs|]. apply Hc. now left.
  - intros c' I. apply Hc. now right.
Qed.

Lemma add_corners_sound_gen fields fs (st : @Builder num) :
  builder_sound fields st -> incl fs fields ->
  builder_sound fields
    (fold_left (fun st f => fold_left add_corner (corners f) st) fs st).
Proof.
  revert st. induction fs as [|f fs IH]; intros st Hs Hi; cbn [fold_left]; [exact Hs|].
  apply IH.
  - apply add_corner_list_sound; [exact Hs|]. intros c I. exists f. split; [|exact I].
    apply Hi. now left.
  - intros f' I. apply Hi. now right.
Qed.

Lemma connect_points fields (all : list (@RoadNode num)) :
  map node_point (connect fields all) = map node_point all
  /\ map (@n_id num) (connect fields all) = map (@n_id num) all.
Proof.
  unfold connect.
  assert (forall s, map node_point
            (map (fun io : nat * RoadNode =>
                    mkNode (n_x (snd io)) (n_y (snd io))
                      (connections (snd io) ++ connections_of fields all (fst io) (snd io))
                      (n_id (snd io)))
               (combine (seq s (length all)) all)) = map node_point all
          /\ map (@n_id num)
            (map (fun io : nat * RoadNode =>
                    mkNode (n_x (snd io)) (n_y (snd io))
                      (connections (snd io) ++ connections_of fields all (fst io) (snd io))
                      (n_id (snd io)))
               (combine (seq s (length all)) all)) = map (@n_id num) all) as G.
  { generalize (connections_of fields all). intros g.
    induction all as [|n all IH]; intros s; [split; reflexivity|].
    cbn [length seq combine map]. destruct (IH (S s)) as [E1 E2].
    split; f_equal; assumption. }
  apply G.
Qed.

Lemma builder_of_network fuel fields (base : @Point num) roadNetwork :
  generateFieldRoadNetwork fuel fields base = Some roadNetwork ->
  exists st0,
    builder_sound fields st0
    /\ roadNetwork = connect fields (nodes (add_corners fields (add_base fields base st0))).
Proof.
  unfold generateFieldRoadNetwork.
  destruct (grid_rows _ _ _ _ _ _ _ _) as [st|] eqn:G; [|discriminate].
  intros E. injection E as <-. exists st. split; [|reflexivity].
  eapply grid_rows_sound; [|exact G]. split; [constructor|reflexivity].
Qed.

Lemma In_connect fields (all : list (@RoadNode num)) n :
  In n (connect fields all) ->
  exists n0, In n0 all /\ n_x n = n_x n0 /\ n_y n = n_y n0 /\ n_id n = n_id n0.
Proof.
  unfold connect. intros I. apply in_map_iff in I. destruct I as [[i n0] [E I]].
  apply in_combine_r in I. exists n0. subst n. cbn. auto.
Qed.

Lemma connect_In fields (all : list (@RoadNode num)) n0 :
  In n0 all ->
  exists n, In n (connect fields all)
            /\ n_x n = n_x n0 /\ n_y n = n_y n0 /\ n_id n = n_id n0.
Proof.
  intros I. destruct (connect_points fields all) as [_ E].
  assert (In (n_id n0) (map (@n_id num) (connect fields all))) as I'
    by (rewrite E; now apply in_map).
  pose proof (connect_points fields all) as [Ep _].
  apply In_nth_error in I. destruct I as [k Hk].
  assert (nth_error (map node_point (connect fields all)) k = Some (node_point n0)) as H1
    by (rewrite Ep; now apply map_nth_error).
  assert (nth_error (map (@n_id num) (connect fields all)) k = Some (n_id n0)) as H2
    by (rewrite E; now apply map_nth_error).
  rewrite nth_error_map in H1, H2.
  destruct (nth_error (connect fields all) k) as [n|] eqn:N; [|discriminate].
  cbn in H1, H2. exists n. split; [eapply nth_error_In; eassumption|].
  injection H1 as -> ->. injection H2 as ->. auto.
Qed.

Lemma nodes_outside_or_corner fuel fields (base : @Point num) roadNetwork :
  generateFieldRoadNetwork fuel fields base = Some roadNetwork ->
  Forall (fun n =>
            (isPointInsideAnyField (node_point n) fields = false
             \/ exists f, In f fields /\ In (node_point n) (corners f))
            /\ n_id n = key_of (n_x n) (n_y n))
         roadNetwork.
Proof.
  intros E. destruct (builder_of_network _ _ _ E) as (st0 & Hs & ->).
  assert (builder_sound fields (add_corners fields (add_base fields base st0))) as [Hn _].
  { apply add_corners_sound_gen; [|apply incl_refl]. now apply add_base_sound. }
  apply Forall_forall. intros n I. apply In_connect in I.
  destruct I as (n0 & I0 & Ex & Ey & Ei).
  rewrite Forall_forall in Hn. destruct (Hn n0 I0) as (Ho & Hid & _).
  unfold node_point in *. rewrite Ex, Ey, Ei. split; [exact Ho|exact Hid].
Qed.

(** X1.  Every node of the road network that [generateFieldRoadNetwork]
    returns lies outside every field or is a corner of a field, and its id
    is the key of its coordinates.  On any number model. *)
Theorem road_nodes_outside_or_corner fuel fields (base : @Point num) roadNetwork :
  generateFieldRoadNetwork fuel fields base = Some roadNetwork ->
  Forall (fun n =>
            (isPointInsideAnyField (node_point n) fields = false
             \/ exists f, In f fields /\ In (node_point n) (corners f))
            /\ n_id n = key_of (n_x n) (n_y n))
         roadNetwork.
Proof. apply nodes_outside_or_corner. Qed.

(* ---------------- lookup ---------------- *)

Lemma map_has_app (m m' : list (num * num)) k :
  map_has (m ++ m') k = map_has m k || map_has m' k.
Proof. unfold map_has. apply existsb_app. Qed.

Lemma push_node_has a b (st : @Builder num) k :
  map_has (nodeMap st) k = true -> map_has (nodeMap (push_node a b st)) k = true.
Proof. intros Hk. unfold push_node. cbn [nodeMap]. rewrite map_has_app, Hk. reflexivity. Qed.

Lemma add_base_has fields base (st : @Builder num) k :
  map_has (nodeMap st) k = true -> map_has (nodeMap (add_base fields base st)) k = true.
Proof.
  intros Hk. unfold add_base.
  repeat match goal with |- context [if ?c then _ else _] => destruct c end;
    auto using push_node_has.
Qed.

Lemma add_corner_has (st : @Builder num) c k :
  map_has (nodeMap st) k = true -> map_has (nodeMap (add_corner st c)) k = true.
Proof.
  intros Hk. unfold add_corner. destruct (negb _); auto using push_node_has.
Qed.

Lemma add_corner_list_has cs (st : @Builder num) k :
  map_has (nodeMap st) k = true -> map_has (nodeMap (fold_left add_corner cs st)) k = true.
Proof.
  revert st. induction cs as [|c cs IH]; intros st Hk; cbn [fold_left]; auto using add_corner_has.
Qed.

Lemma add_corners_has fs (st : @Builder num) k :
  map_has (nodeMap st) k = true ->
  map_has (nodeMap (fold_left (fun st f => fold_left add_corner (corners f) st) fs st)) k = true.
Proof.
  revert st. induction fs as [|f fs IH]; intros st Hk; cbn [fold_left];
    auto using add_corner_list_has.
Qed.

Section Lookup.

Context {K : KeyFacts J}.

Lemma same_key_refl (k : num * num) : same_key k k = true.
Proof. unfold same_key. now rewrite !key_eqb_refl. Qed.

Lemma push_node_new a b (st : @Builder num) :
  map_has (nodeMap (push_node a b st)) (key_of a b) = true.
Proof.
  unfold push_node. cbn [nodeMap]. rewrite map_has_app. cbn.
  rewrite same_key_refl. cbn. apply orb_true_r.
Qed.

Lemma add_base_new fields base (st : @Builder num) :
  isPointInsideAnyField base fields = false ->
  map_has (nodeMap (add_base fields base st)) (key_of (x base) (y base)) = true.
Proof.
  intros I. unfold add_base. rewrite I. cbn [negb].
  destruct (map_has (nodeMap st) _) eqn:M; cbn [negb]; [exact M|apply push_node_new].
Qed.

Lemma add_corner_new (st : @Builder num) c :
  map_has (nodeMap (add_corner st c)) (key_of (x c) (y c)) = true.
Proof.
  unfold add_corner.
  destruct (map_has (nodeMap st) _) eqn:M; cbn [negb]; [exact M|apply push_node_new].
Qed.

Lemma add_corner_list_new cs (st : @Builder num) c :
  In c cs -> map_has (nodeMap (fold_left add_corner cs st)) (key_of (x c) (y c)) = true.
Proof.
  revert st. induction cs as [|c' cs IH]; intros st I; [destruct I|].
  cbn [fold_left]. destruct I as [->|I]; [|now apply IH].
  apply add_corner_list_has, add_corner_new.
Qed.

Lemma add_corners_new fs (st : @Builder num) f c :
  In f fs -> In c (corners f) ->
  map_has
    (nodeMap (fold_left (fun st f => fold_left add_corner (corners f) st) fs st))
    (key_of (x c) (y c)) = true.
Proof.
  revert st. induction fs as [|f' fs IH]; intros st If Ic; [destruct If|].
  cbn [fold_left]. destruct If as [->|If]; [|now apply IH].
  apply add_corners_has. now apply add_corner_list_new.
Qed.

Lemma has_node fields (st : @Builder num) k :
  builder_sound fields st -> map_has (nodeMap st) k = true ->
  exists n, In n (nodes st) /\ same_key k (n_id n) = true.
Proof.
  intros [_ Hm] Hk. unfold map_has in Hk. apply existsb_exists in Hk.
  destruct Hk as (k' & I & S). rewrite Hm in I. apply in_map_iff in I.
  destruct I as (n & <- & I). eauto.
Qed.

(** X2.  The network has a node at the base station whenever the base
    station is not inside a field, and a node at each corner of each field
    (a node whose coordinates print as those of the point).  On any number
    model whose keys are equal to themselves. *)
Theorem base_and_corners_are_nodes fuel fields (base : @Point num) roadNetwork :
  generateFieldRoadNetwork fuel fields base = Some roadNetwork ->
  (isPointInsideAnyField base fields = false ->
   exists n, In n roadNetwork
             /\ same_key (key_of (x base) (y base)) (key_of (n_x n) (n_y n)) = true)
  /\ forall f c, In f fields -> In c (corners f) ->
       exists n, In n roadNetwork
                 /\ same_key (key_of (x c) (y c)) (key_of (n_x n) (n_y n)) = true.
Proof.
  intros E. destruct (builder_of_network _ _ _ E) as (st0 & Hs & ->).
  assert (builder_sound fields (add_corners fields (add_base fields base st0))) as Hs'.
  { apply add_corners_sound_gen; [|apply incl_refl]. now apply add_base_sound. }
  assert (forall k,
            map_has (nodeMap (add_corners fields (add_base fields base st0))) k = true ->
            exists n, In n (connect fields (nodes (add_corners fields (add_base fields base st0))))
                      /\ same_key k (key_of (n_x n) (n_y n)) = true) as G.
  { intros k Hk. destruct (@has_node fields _ k Hs' Hk) as (n0 & I0 & S0).
    destruct (connect_In fields _ _ I0) as (n & I & Ex & Ey & Ei).
    destruct Hs' as [Hn _]. rewrite Forall_forall in Hn. destruct (Hn n0 I0) as (_ & Hid & _).
    exists n. split; [exact I|]. rewrite Ex, Ey, <- Hid. exact S0. }
  split.
  - intros I. apply G. apply add_corners_has. now apply add_base_new.
  - intros f c If Ic. apply G. now apply (@add_corners_new fields _ f c).
Qed.

End Lookup.

End Network.

Section Combine.

Lemma nth_error_combine_seq {A} (l : list A) s i :
  nth_error (combine (seq s (length l)) l) i
  = option_map (fun a => (s + i, a)) (nth_error l i).
Proof.
  revert s i. induction l as [|a l IH]; intros s i; cbn [length seq combine].
  - destruct i; reflexivity.
  - destruct i as [|i]; cbn [nth_error option_map].
    + now rewrite Nat.add_0_r.
    + rewrite IH. now rewrite Nat.add_succ_r.
Qed.

Lemma In_indexed {A} (l : list A) j a :
  In (j, a) (combine (seq 0 (length l)) l) <-> nth_error l j = Some a.
Proof.
  split.
  - intros I. apply In_nth_error in I. destruct I as [k Hk].
    rewrite nth_error_combine_seq in Hk. destruct (nth_error l k) eqn:E; [|discriminate].
    cbn in Hk. now injection Hk as <- <-.
  - intros E. apply (nth_error_In _ j). rewrite nth_error_combine_seq, E. reflexivity.
Qed.

End Combine.

Section Connections.

Context {num : Type} {J : JsNumber num}.

Lemma In_connections_of fields (all : list (@RoadNode num)) i node j :
  In j (connections_of fields all i node) <->
  exists m,
    nth_error all j = Some m /\ i <> j
    /\ nleb (calculateDistance (node_point node) (node_point m))
            (nmul roadSpacing (dec 15 10)) = true
    /\ doesPathCrossFields (node_point node) (node_point m) fields = false.
Proof.
  unfold connections_of. rewrite in_map_iff. split.
  - intros ([j' m] & <- & I). apply filter_In in I. destruct I as [I P].
    apply In_indexed in I. cbn [fst snd] in *. exists m.
    destruct (Nat.eqb i j') eqn:N; cbn [negb] in P; [discriminate|].
    apply Nat.eqb_neq in N.
    destruct (nleb _ _); [|discriminate].
    destruct (doesPathCrossFields _ _ _); [discriminate|]. auto.
  - intros (m & E & N & D & C). exists (j, m). split; [reflexivity|].
    apply filter_In. split; [now apply In_indexed|]. cbn [fst snd].
    apply Nat.eqb_neq in N. rewrite N. cbn [negb]. rewrite D, C. reflexivity.
Qed.

Lemma nth_error_connect fields (all : list (@RoadNode num)) i n :
  nth_error (connect fields all) i = Some n <->
  exists n0, nth_error all i = Some n0
             /\ n = mkNode (n_x n0) (n_y n0)
                      (connections n0 ++ connections_of fields all i n0) (n_id n0).
Proof.
  unfold connect. rewrite nth_error_map, nth_error_combine_seq.
  destruct (nth_error all i) as [n0|]; cbn [option_map]; split.
  - intros E. injection E as <-. eauto.
  - intros (n1 & E & ->). now injection E as <-.
  - discriminate.
  - intros (n1 & E & _). discriminate.
Qed.

End Connections.

Section ConnectionsOfNetwork.

Context {num : Type} {J : JsNumber num}.
Local Open Scope js_scope.

(** X4.  In the network the builder returns, the connections of a node are
    exactly the other nodes within [roadSpacing * 1.5] of it, in the
    distance the program computes, for which [doesPathCrossFields] finds no
    sample point inside a field; no node is connected to itself.  On any
    number model. *)
Theorem road_connections_near_and_clear fuel fields (base : @Point num) roadNetwork :
  generateFieldRoadNetwork fuel fields base = Some roadNetwork ->
  forall i n, nth_error roadNetwork i = Some n ->
    forall j,
      In j (connections n) <->
      exists m,
        nth_error roadNetwork j = Some m /\ i <> j
        /\ (calculateDistance (node_point n) (node_point m) <=? roadSpacing * dec 15 10) = true
        /\ doesPathCrossFields (node_point n) (node_point m) fields = false.
Proof.
  intros E i n Hi j.
  destruct (builder_of_network _ _ _ E) as (st0 & Hs0 & ->).
  assert (builder_sound fields (add_corners fields (add_base fields base st0))) as [Hs _].
  { apply add_corners_sound_gen; [|apply incl_refl]. now apply add_base_sound. }
  set (all := nodes (add_corners fields (add_base fields base st0))) in *.
  apply nth_error_connect in Hi. destruct Hi as (n0 & Hi & En).
  rewrite Forall_forall in Hs.
  destruct (Hs n0 (nth_error_In _ _ Hi)) as (_ & _ & Cn).
  assert (node_point n = node_point n0) as Pn by (subst n; reflexivity).
  assert (connections n = connections_of fields all i n0) as -> by (subst n; cbn; now rewrite Cn).
  rewrite Pn. clear En. rewrite In_connections_of. split.
  - intros (m0 & Hj & N & D & C).
    exists (mkNode (n_x m0) (n_y m0) (connections m0 ++ connections_of fields all j m0) (n_id m0)).
    split; [|auto]. apply nth_error_connect. eauto.
  - intros (m & Hj & N & D & C). apply nth_error_connect in Hj.
    destruct Hj as (m0 & Hj & ->). exists m0. auto.
Qed.

End ConnectionsOfNetwork.

Lemma one_field_first_node :
  exists roadNetwork n,
    generateFieldRoadNetwork 20 Example.one_field Example.below = Some roadNetwork
    /\ nth_error roadNetwork 0 = Some n.
Proof. eexists. eexists. vm_compute. split; reflexivity. Qed.

Lemma road_connections_near_and_clear_witness :
  exists roadNetwork n,
    generateFieldRoadNetwork 20 Example.one_field Example.below = Some roadNetwork
    /\ nth_error roadNetwork 0 = Some n
    /\ forall j,
         In j (connections n) <->
         exists m,
           nth_error roadNetwork j = Some m /\ 0 <> j
           /\ (calculateDistance (node_point n) (node_point m) <=? roadSpacing * dec 15 10)%js
              = true
           /\ doesPathCrossFields (node_point n) (node_point m) Example.one_field = false.
Proof.
  destruct one_field_first_node as (net & n & E & N).
  exists net, n. split; [exact E|]. split; [exact N|].
  exact (@road_connections_near_and_clear float binary64 20 Example.one_field Example.below
           net E 0 n N).
Defined.

Section FinderGeneric.

Context {num : Type} {J : JsNumber num} {F : JsFacts J}.

Lemma closer_same_place (p : @Point num) a a' b b' :
  same_place a a' -> same_place b b' -> same_place (closer p a b) (closer p a' b').
Proof.
  intros [Ha1 Ha2] [Hb1 Hb2]. unfold closer. rewrite Ha2, Hb2.
  destruct (nltb _ _); split; assumption.
Qed.

Lemma fold_closer_same_place (p : @Point num) l l' a a' :
  Forall2 same_place l l' -> same_place a a' ->
  same_place (fold_left (closer p) l a) (fold_left (closer p) l' a').
Proof.
  intros H. revert a a'. induction H as [|b b' l l' Hb _ IH]; intros a a' Ha; cbn [fold_left].
  - exact Ha.
  - apply IH. now apply closer_same_place.
Qed.

Lemma indexed_same_place (net net' : list (@RoadNode num)) s :
  map node_point net = map node_point net' ->
  Forall2 same_place (combine (seq s (length net)) net) (combine (seq s (length net')) net').
Proof.
  revert net' s. induction net as [|n net IH]; intros [|n' net'] s E; try discriminate.
  - constructor.
  - cbn [map] in E. assert (node_point n = node_point n') as E1 by congruence.
    assert (map node_point net = map node_point net') as E2 by congruence.
    cbn [length seq combine]. constructor.
    + split; [reflexivity|exact E1].
    + now apply IH.
Qed.

Lemma nearest_node_same_place (p : @Point num) net net' :
  map node_point net = map node_point net' ->
  match nearest_node p net, nearest_node p net' with
  | Some a, Some b => same_place a b
  | None, None => True
  | _, _ => False
  end.
Proof.
  intros E. unfold nearest_node, indexed.
  pose proof (indexed_same_place net net' 0 E) as H.
  destruct H as [|a a' l l' Ha Hl]; [exact I|].
  now apply fold_closer_same_place.
Qed.

(** X6.  [findShortestPath] does not depend on the connections of the
    network: two networks with the same node coordinates give the same
    path, which has at most two points, both of them nodes.  On any number
    model. *)
Theorem findShortestPath_ignores_connections (start_ end_ : @Point num)
    (roadNetwork roadNetwork' : list RoadNode) :
  map node_point roadNetwork = map node_point roadNetwork' ->
  findShortestPath start_ end_ roadNetwork = findShortestPath start_ end_ roadNetwork'
  /\ forall path, findShortestPath start_ end_ roadNetwork = Some path ->
       length path <= 2 /\ incl path (map node_point roadNetwork).
Proof.
  intros E. rewrite !findShortestPath_straight.
  pose proof (nearest_node_same_place start_ _ _ E) as Hs.
  pose proof (nearest_node_same_place end_ _ _ E) as He.
  destruct (nearest_node start_ roadNetwork) as [[si s]|] eqn:Es,
           (nearest_node start_ roadNetwork') as [[si' s']|]; try contradiction;
    [|split; [reflexivity|discriminate]].
  destruct (nearest_node end_ roadNetwork) as [[ei e]|] eqn:Ee,
           (nearest_node end_ roadNetwork') as [[ei' e']|]; try contradiction;
    [|split; [reflexivity|discriminate]].
  destruct Hs as [_ Hs], He as [_ He]. cbn [fst snd] in *.
  assert (n_x s = n_x s' /\ n_y s = n_y s') as [-> ->]
    by (unfold node_point in Hs; now injection Hs).
  assert (n_x e = n_x e' /\ n_y e = n_y e') as [-> ->]
    by (unfold node_point in He; now injection He).
  rewrite Hs, He. split; [reflexivity|].
  apply nearest_node_nth, nth_error_In in Es, Ee.
  apply (in_map node_point) in Es, Ee. rewrite Hs in Es. rewrite He in Ee.
  intros path P. destruct (_ && _); injection P as <-; cbn [length]; split; try lia.
  - intros q [<-|[]]. exact Ee.
  - intros q [<-|[<-|[]]]; assumption.
Qed.

End FinderGeneric.

(* ------------------------------------------------------------------ *)
(** ** The order of the doubles, and their zeros *)

Section Rank.

Local Open Scope Z_scope.

Ltac z_cases :=
  repeat match goal with
         | |- context [Z.ltb ?a ?b] => destruct (Z.ltb_spec a b)
         | |- context [Z.eqb ?a ?b] => destruct (Z.eqb_spec a b)
         end;
  cbn [orb andb CompOpp]; try reflexivity; try (exfalso; lia).

Lemma SFcompare_rank (x y : spec_float) (kx ky : Z * Z * Z) :
  rank x = Some kx -> rank y = Some ky ->
  SFcompare x y
  = Some (if belowb kx ky then Lt else if sameb kx ky then Eq else Gt).
Proof.
  destruct x as [sx|sx| |sx mx ex], y as [sy|sy| |sy my ey]; try discriminate;
    try destruct sx; try destruct sy; cbn [rank]; intros [= <-] [= <-];
    try reflexivity; cbn [SFcompare belowb sameb];
    rewrite Pos.compare_cont_spec; cbn [Pos.switch_Eq];
    destruct (Z.compare_spec ex ey) as [E|L|G];
    try (destruct (Pos.compare_spec mx my) as [E'|L'|G']); z_cases.
Qed.

End Rank.

Section FloatOrder.

Local Open Scope float_scope.

Lemma rank_nan (s : spec_float) : rank s = None -> s = S754_nan.
Proof. destruct s as [[|]|[|]| |[|] m e]; now intros. Qed.

Lemma ltb_rank (a b : float) :
  (a <? b) = match rank_of a, rank_of b with
             | Some ka, Some kb => belowb ka kb
             | _, _ => false
             end.
Proof.
  rewrite ltb_spec. unfold SFltb, rank_of.
  destruct (rank (Prim2SF a)) as [ka|] eqn:Ea.
  - destruct (rank (Prim2SF b)) as [kb|] eqn:Eb.
    + rewrite (SFcompare_rank _ _ Ea Eb). destruct (belowb ka kb); [reflexivity|].
      now destruct (sameb ka kb).
    + apply rank_nan in Eb. rewrite Eb. now destruct (Prim2SF a).
  - apply rank_nan in Ea. now rewrite Ea.
Qed.

Lemma leb_rank (a b : float) :
  (a <=? b) = match rank_of a, rank_of b with
              | Some ka, Some kb => belowb ka kb || sameb ka kb
              | _, _ => false
              end.
Proof.
  rewrite leb_spec. unfold SFleb, rank_of.
  destruct (rank (Prim2SF a)) as [ka|] eqn:Ea.
  - destruct (rank (Prim2SF b)) as [kb|] eqn:Eb.
    + rewrite (SFcompare_rank _ _ Ea Eb). destruct (belowb ka kb); [reflexivity|].
      now destruct (sameb ka kb).
    + apply rank_nan in Eb. rewrite Eb. now destruct (Prim2SF a).
  - apply rank_nan in Ea. now rewrite Ea.
Qed.

Lemma eqb_rank (a b : float) :
  (a =? b) = match rank_of a, rank_of b with
             | Some ka, Some kb => negb (belowb ka kb) && sameb ka kb
             | _, _ => false
             end.
Proof.
  rewrite eqb_spec. unfold SFeqb, rank_of.
  destruct (rank (Prim2SF a)) as [ka|] eqn:Ea.
  - destruct (rank (Prim2SF b)) as [kb|] eqn:Eb.
    + rewrite (SFcompare_rank _ _ Ea Eb). destruct (belowb ka kb); [reflexivity|].
      now destruct (sameb ka kb).
    + apply rank_nan in Eb. rewrite Eb. now destruct (Prim2SF a).
  - apply rank_nan in Ea. now rewrite Ea.
Qed.

Lemma is_nan_rank (a : float) :
  is_nan a = match rank_of a with Some _ => false | None => true end.
Proof.
  unfold is_nan. rewrite eqb_rank. destruct (rank_of a) as [[[k1 k2] k3]|]; [|reflexivity].
  cbn [belowb sameb]. rewrite !Z.ltb_irrefl, !Z.eqb_refl. reflexivity.
Qed.

End FloatOrder.

(** Comparisons of doubles, decided on their ranks. *)
Ltac float_order :=
  rewrite ?ltb_rank, ?leb_rank, ?eqb_rank, ?is_nan_rank in *;
  repeat match goal with
         | H : context [rank_of ?a] |- _ => destruct (rank_of a) as [[[? ?] ?]|]
         | |- context [rank_of ?a] => destruct (rank_of a) as [[[? ?] ?]|]
         end;
  cbn [belowb sameb] in *;
  repeat match goal with
         | H : _ = true |- _ => revert H
         | H : _ = false |- _ => revert H
         end;
  repeat (match goal with
          | |- context [Z.ltb ?a ?b] => destruct (Z.ltb_spec a b)
          | |- context [Z.eqb ?a ?b] => destruct (Z.eqb_spec a b)
          end; cbn [orb andb negb]; try (exfalso; lia));
  cbn [orb andb negb]; intros; try congruence; try reflexivity; try lia.

Section OrderLemmas.

Local Open Scope float_scope.

Lemma leb_trans (a b c : float) : (a <=? b) = true -> (b <=? c) = true -> (a <=? c) = true.
Proof. intros H1 H2. float_order. Qed.

Lemma not_ltb_trans (a b c : float) :
  is_nan b = false -> (b <? a) = false -> (c <? b) = false -> (c <? a) = false.
Proof. intros N H1 H2. float_order. Qed.

Lemma ltb_not_ltb (a b c : float) :
  is_nan c = false -> (a <? b) = true -> (c <? b) = false -> (a <? c) = true.
Proof. intros N H1 H2. float_order. Qed.

Lemma not_ltb_ltb (a b c : float) :
  is_nan a = false -> (b <? a) = false -> (b <? c) = true -> (a <? c) = true.
Proof. intros N H1 H2. float_order. Qed.

Lemma leb_refl (a : float) : is_nan a = false -> (a <=? a) = true.
Proof. intros N. float_order. Qed.

Lemma ltb_leb (a b : float) : (a <? b) = true -> (a <=? b) = true.
Proof. intros H. float_order. Qed.

Lemma not_ltb_leb (a b : float) :
  is_nan a = false -> is_nan b = false -> (b <? a) = false -> (a <=? b) = true.
Proof. intros Na Nb H. float_order. Qed.

Lemma leb_not_nan (a b : float) : (a <=? b) = true -> is_nan a = false /\ is_nan b = false.
Proof. intros H. split; float_order. Qed.

End OrderLemmas.

Section FloatArith.

Local Open Scope float_scope.

Lemma min_le_l (a b : float) :
  is_nan a = false -> is_nan b = false -> (Binary64.min a b <=? a) = true.
Proof.
  intros Na Nb. unfold Binary64.min. rewrite Na, Nb. cbn [orb].
  destruct (a <? b) eqn:L1; [now apply leb_refl|].
  destruct (b <? a) eqn:L2; [now apply ltb_leb|].
  destruct (get_sign a); [now apply leb_refl|now apply not_ltb_leb].
Qed.

Lemma min_le_r (a b : float) :
  is_nan a = false -> is_nan b = false -> (Binary64.min a b <=? b) = true.
Proof.
  intros Na Nb. unfold Binary64.min. rewrite Na, Nb. cbn [orb].
  destruct (a <? b) eqn:L1; [now apply ltb_leb|].
  destruct (b <? a) eqn:L2; [now apply leb_refl|].
  destruct (get_sign a); [now apply not_ltb_leb|now apply leb_refl].
Qed.

Lemma sub_zero_r (a : float) : a - 0 = a.
Proof.
  apply Prim2SF_inj. rewrite sub_spec. change (Prim2SF 0) with (S754_zero false).
  now destruct (Prim2SF a) as [[|]|[|]| |[|] m e].
Qed.

Lemma add_zero_r (a : float) : Prim2SF a <> S754_zero true -> a + 0 = a.
Proof.
  intros N. apply Prim2SF_inj. rewrite add_spec. change (Prim2SF 0) with (S754_zero false).
  destruct (Prim2SF a) as [[|]|[|]| |[|] m e]; try reflexivity. now elim N.
Qed.

(** One minus a zero is one. *)
Lemma one_minus_zero (c : float) s : Prim2SF c = S754_zero s -> 1 - c = 1.
Proof.
  intros E. apply Prim2SF_inj. rewrite sub_spec, E. reflexivity.
Qed.

End FloatArith.

(* ------------------------------------------------------------------ *)
(** ** The nearest node and the nearest corner *)

Section Nearest.

Local Open Scope float_scope.

Variable p : @Point float.

Local Abbreviation d n := (calculateDistance p (node_point (snd n))) (only parsing).

Lemma ltb_irrefl (a : float) : (a <? a) = false.
Proof. float_order. Qed.

Lemma ltb_false_trans (a b c : float) :
  (b <? a) = true -> (b <? c) = false -> (a <? c) = false.
Proof. intros H1 H2. float_order. Qed.

Lemma closer_spec (a b : nat * @RoadNode float) :
  closer p a b = if d b <? d a then b else a.
Proof. reflexivity. Qed.

Lemma fold_closer_least l (a : nat * @RoadNode float) :
  Forall (fun n => is_nan (d n) = false) (a :: l) ->
  forall n, In n (a :: l) -> (d n <? d (fold_left (closer p) l a)) = false.
Proof.
  revert a. induction l as [|b l IH]; intros a Hf n I.
  - destruct I as [<-|[]]. apply ltb_irrefl.
  - inversion Hf as [|? ? Ha Hf']; subst. inversion Hf' as [|? ? Hb Hl]; subst.
    cbn [fold_left]. rewrite closer_spec. destruct (d b <? d a) eqn:L.
    + pose proof (IH b Hf' b (or_introl eq_refl)) as Hbb.
      destruct I as [<-|I]; [|now apply IH].
      eapply ltb_false_trans; eassumption.
    + assert (Forall (fun n => is_nan (d n) = false) (a :: l)) as Hf2
        by (constructor; assumption).
      pose proof (IH a Hf2 a (or_introl eq_refl)) as Haa.
      destruct I as [<-|[<-|I]]; [exact Haa| |apply IH; [exact Hf2|now right]].
      eapply not_ltb_trans; [exact Ha|exact Haa|exact L].
Qed.

Lemma fold_closer_first l (a : nat * @RoadNode float) :
  Forall (fun n => is_nan (d n) = false) (a :: l) ->
  StronglySorted (fun u v => (fst u < fst v)%nat) (a :: l) ->
  forall n, In n (a :: l) -> (fst n < fst (fold_left (closer p) l a))%nat ->
    (d (fold_left (closer p) l a) <? d n) = true.
Proof.
  revert a. induction l as [|b l IH]; intros a Hf Hs n I L.
  - destruct I as [<-|[]]. cbn in L. lia.
  - inversion Hf as [|? ? Ha Hf']; subst. inversion Hf' as [|? ? Hb Hl]; subst.
    inversion Hs as [|? ? Hs' Hab]; subst. inversion Hs' as [|? ? Hs'' Hbl]; subst.
    inversion Hab as [|? ? Hab1 Hal]; subst.
    cbn [fold_left] in *. rewrite closer_spec in *. destruct (d b <? d a) eqn:D.
    + pose proof (@fold_closer_least l b Hf' b (or_introl eq_refl)) as Hbb.
      destruct I as [<-|I]; [|now apply IH].
      eapply not_ltb_ltb; [|exact Hbb|exact D].
      destruct (fold_closer_In p l b) as [<-|I']; [exact Hb|].
      rewrite Forall_forall in Hl. now apply Hl.
    + assert (Forall (fun n => is_nan (d n) = false) (a :: l)) as Hf2
        by (constructor; assumption).
      assert (StronglySorted (fun u v => (fst u < fst v)%nat) (a :: l)) as Hs2
        by (constructor; assumption).
      destruct I as [<-|[<-|I]].
      * now apply IH; [| |left|].
      * destruct (fold_closer_In p l a) as [E|I'].
        -- rewrite <- E in L. lia.
        -- rewrite Forall_forall in Hal. pose proof (Hal _ I') as La.
           pose proof (IH a Hf2 Hs2 a (or_introl eq_refl) La) as Hra.
           eapply ltb_not_ltb; [exact Hb|exact Hra|exact D].
      * apply IH; [exact Hf2|exact Hs2|now right|exact L].
Qed.

Lemma indexed_sorted {A} (l : list A) s :
  StronglySorted (fun u v : nat * A => (fst u < fst v)%nat) (combine (seq s (length l)) l).
Proof.
  revert s. induction l as [|a l IH]; intros s; cbn [length seq combine]; constructor.
  - apply IH.
  - apply Forall_forall. intros [i b] I. apply In_combine_seq in I. cbn. lia.
Qed.

Lemma nearest_node_is_nearest roadNetwork :
  roadNetwork <> [] -> distances_known p roadNetwork ->
  exists i node,
    nearest_node p roadNetwork = Some (i, node) /\ first_nearest roadNetwork p i node.
Proof.
  intros NE Hf. destruct (nearest_node_Some p NE) as [[i node] E].
  pose proof (nearest_node_nth _ _ E) as N.
  exists i, node. split; [exact E|]. split; [exact N|].
  intros j other Hj.
  unfold nearest_node, indexed in E.
  destruct (combine (seq 0 (length roadNetwork)) roadNetwork) as [|a l] eqn:C; [discriminate|].
  injection E as E.
  assert (Forall (fun n => is_nan (d n) = false) (a :: l)) as Hf'.
  { rewrite <- C. apply Forall_forall. intros [k n] I. apply in_combine_r in I.
    unfold distances_known in Hf. rewrite Forall_forall in Hf. now apply Hf. }
  assert (In (j, other) (a :: l)) as I by (rewrite <- C; now apply In_indexed).
  pose proof (@fold_closer_least l a Hf' _ I) as Hle.
  pose proof (@fold_closer_first l a Hf') as Hlt.
  rewrite E in Hle, Hlt. split; [exact Hle|].
  intros L.
  assert (StronglySorted (fun u v : nat * RoadNode => (fst u < fst v)%nat) (a :: l)) as S
    by (rewrite <- C; apply indexed_sorted).
  exact (Hlt S _ I L).
Qed.

End Nearest.

(** X5.  On binary64, when the distances from the two points to the nodes
    are numbers (not NaN), the path [findShortestPath] returns ends at the
    first of the nodes nearest to the end point and has, before it, the
    first of the nodes nearest to the start point or nothing. *)
Theorem findShortestPath_endpoints (start_ end_ : @Point float) roadNetwork :
  roadNetwork <> [] ->
  distances_known start_ roadNetwork -> distances_known end_ roadNetwork ->
  exists i a j b path,
    findShortestPath start_ end_ roadNetwork = Some path
    /\ first_nearest roadNetwork start_ i a
    /\ first_nearest roadNetwork end_ j b
    /\ (path = [node_point b] \/ path = [node_point a; node_point b]).
Proof.
  intros NE Hs He.
  destruct (nearest_node_is_nearest NE Hs) as (i & a & Ea & Ha).
  destruct (nearest_node_is_nearest NE He) as (j & b & Eb & Hb).
  exists i, a, j, b. rewrite findShortestPath_straight, Ea, Eb. cbn [fst snd].
  eexists. split; [reflexivity|]. split; [exact Ha|]. split; [exact Hb|].
  destruct (_ && _); auto.
Qed.

Lemma findShortestPath_endpoints_witness :
  exists i a j b path,
    findShortestPath (mkPoint 1 1)%float (mkPoint 9 1)%float Example.apart = Some path
    /\ first_nearest Example.apart (mkPoint 1 1)%float i a
    /\ first_nearest Example.apart (mkPoint 9 1)%float j b
    /\ (path = [node_point b] \/ path = [node_point a; node_point b]).
Proof.
  apply (@findShortestPath_endpoints (mkPoint 1 1)%float (mkPoint 9 1)%float Example.apart).
  - discriminate.
  - repeat constructor.
  - repeat constructor.
Defined.

Section Entry.

Local Open Scope float_scope.

Variable base : @Point float.

Local Abbreviation step :=
  (fun (acc : @Point float * float) (corner : @Point float) =>
     if calculateDistance base corner <? snd acc
     then (corner, calculateDistance base corner) else acc) (only parsing).

Lemma entry_fold cs (acc : @Point float * float) :
  snd acc = calculateDistance base (fst acc) ->
  Forall (fun c => is_nan (calculateDistance base c) = false) (fst acc :: cs) ->
  In (fst (fold_left step cs acc)) (fst acc :: cs)
  /\ forall c, In c (fst acc :: cs) ->
       (calculateDistance base c <? calculateDistance base (fst (fold_left step cs acc)))
       = false.
Proof.
  revert acc. induction cs as [|b cs IH]; intros acc Ea Hf.
  - cbn [fold_left]. split; [now left|]. intros c [<-|[]]. apply ltb_irrefl.
  - inversion Hf as [|? ? Ha Hf']; subst. inversion Hf' as [|? ? Hb Hl]; subst.
    cbn [fold_left]. cbv beta. rewrite Ea.
    destruct (calculateDistance base b <? calculateDistance base (fst acc)) eqn:L.
    + destruct (IH (b, calculateDistance base b) ltac:(reflexivity) Hf') as [I H].
      cbn [fst] in I, H.
      split; [now right|]. intros c [<-|I']; [|now apply H].
      eapply ltb_false_trans; [exact L|]. apply H. now left.
    + assert (Forall (fun c => is_nan (calculateDistance base c) = false) (fst acc :: cs))
        as Hf2 by (constructor; assumption).
      destruct (IH acc Ea Hf2) as [I H].
      split; [destruct I as [I|I]; [now left|now right; right]|].
      intros c [<-|[<-|I']]; [apply H; now left| |apply H; now right].
      eapply not_ltb_trans; [exact Ha|apply H; now left|exact L].
Qed.

End Entry.

(** X7.  [selectOptimalFieldEntryPoint] returns the last work position
    when there is one; otherwise, on binary64 and when the distances from
    the base station to the corners are numbers, a corner of the field than
    which no corner is nearer. *)
Theorem selectOptimalFieldEntryPoint_nearest_corner (f : @Field float) (base : @Point float)
    (lastWorkPosition : option (@Point float)) :
  Forall (fun c => is_nan (calculateDistance base c) = false) (corners f) ->
  match lastWorkPosition with
  | Some p => selectOptimalFieldEntryPoint f base lastWorkPosition = p
  | None =>
      In (selectOptimalFieldEntryPoint f base lastWorkPosition) (corners f)
      /\ forall c, In c (corners f) ->
           (calculateDistance base c
            <? calculateDistance base (selectOptimalFieldEntryPoint f base lastWorkPosition))%js
           = false
  end.
Proof.
  intros Hf. destruct lastWorkPosition as [p|]; [reflexivity|].
  unfold selectOptimalFieldEntryPoint.
  assert (Forall (fun c => is_nan (calculateDistance base c) = false)
            (mkPoint (f_x f) (f_y f) :: corners f)) as Hf'.
  { constructor; [|exact Hf]. now inversion Hf. }
  destruct (@entry_fold base (corners f)
              (mkPoint (f_x f) (f_y f), calculateDistance base (mkPoint (f_x f) (f_y f)))
              ltac:(reflexivity) Hf') as [I H].
  cbn [fst] in I, H. split.
  - destruct I as [E|I]; [left; exact E|exact I].
  - intros c Ic. exact (H c (or_intror Ic)).
Qed.

Lemma selectOptimalFieldEntryPoint_nearest_corner_witness :
  In (selectOptimalFieldEntryPoint (mkField 1 0 0 100 80)%float (mkPoint 50 (-10))%float None)
     (corners (mkField 1 0 0 100 80)%float)
  /\ forall c, In c (corners (mkField 1 0 0 100 80)%float) ->
       (calculateDistance (mkPoint 50 (-10))%float c
        <? calculateDistance (mkPoint 50 (-10))%float
             (selectOptimalFieldEntryPoint (mkField 1 0 0 100 80)%float
                (mkPoint 50 (-10))%float None))%js
       = false.
Proof.
  apply (@selectOptimalFieldEntryPoint_nearest_corner (mkField 1 0 0 100 80)%float
           (mkPoint 50 (-10))%float None).
  repeat constructor.
Defined.

(* ------------------------------------------------------------------ *)
(** ** Distances *)

Section Symmetry.

Local Open Scope float_scope.

(** Rounding treats a number and its opposite alike. *)
Lemma binary_round_abs s s' m e :
  SFabs (binary_round prec emax s m e) = SFabs (binary_round prec emax s' m e).
Proof.
  unfold binary_round, binary_round_aux.
  destruct (shl_align _ _ _) as [mz ez].
  destruct (shr_fexp _ _ _ _ _) as [mrs e'].
  destruct (shr_fexp _ _ _ _ _) as [mrs' e''].
  destruct (shr_m mrs'); try reflexivity. now destruct (Z.leb _ _).
Qed.

Lemma binary_normalize_abs (m : Z) e :
  SFabs (binary_normalize prec emax (- m) e false)
  = SFabs (binary_normalize prec emax m e false).
Proof.
  destruct m as [|q|q]; cbn [Z.opp binary_normalize]; [reflexivity| |]; apply binary_round_abs.
Qed.

(** [b - a] is the opposite of [a - b], up to the sign of a zero. *)
Lemma SFsub_swap (x y : spec_float) : SFabs (SF64sub x y) = SFabs (SF64sub y x).
Proof.
  unfold SF64sub.
  destruct x as [[|]|[|]| |[|] mx ex], y as [[|]|[|]| |[|] my ey]; try reflexivity;
    unfold SFsub; rewrite (Z.min_comm ey ex);
    match goal with
    | |- SFabs (binary_normalize _ _ (?a - ?b)%Z _ _) = _ =>
        replace (a - b)%Z with (- (b - a))%Z by lia
    end; apply binary_normalize_abs.
Qed.

(** A square depends on the magnitude only. *)
Lemma SFmul_square (x y : spec_float) : SFabs x = SFabs y -> SF64mul x x = SF64mul y y.
Proof.
  unfold SF64mul.
  destruct x as [[|]|[|]| |[|] mx ex], y as [[|]|[|]| |[|] my ey]; cbn [SFabs]; intros E;
    try discriminate E; try reflexivity; injection E as -> ->; reflexivity.
Qed.

Lemma pow2_swap (a b : float) : pow2 (a - b)%js = pow2 (b - a)%js.
Proof.
  unfold pow2. cbn [nmul nsub binary64]. apply Prim2SF_inj. rewrite !mul_spec.
  apply SFmul_square. rewrite !sub_spec. apply SFsub_swap.
Qed.

End Symmetry.

(** X22.  On binary64, [calculateDistance] is symmetric, for all points:
    NaN and the infinities included. *)
Theorem calculateDistance_symmetric (p q : @Point float) :
  calculateDistance p q = calculateDistance q p.
Proof.
  unfold calculateDistance.
  now rewrite (pow2_swap (x q) (x p)), (pow2_swap (y q) (y p)).
Qed.

Section Logged.

Context {num : Type} {J : JsNumber num}.
Variables (sd : num) (base : @Point num).

Lemma logged_plain_app ps evs added :
  logged sd base ps evs -> Forall (fun p => is_plain (action p) = true) added ->
  logged sd base (ps ++ added) evs.
Proof.
  intros H Ha. revert ps H. induction Ha as [|p added Hp _ IH]; intros ps H.
  - now rewrite app_nil_r.
  - change (p :: added) with ([p] ++ added). rewrite app_assoc. apply IH.
    now apply logged_plain.
Qed.

(** *** Identity, path and events through the steps of a turn *)

Lemma advance_keeps (m : @MachineState num) pt :
  m_id (advance m pt) = m_id m /\ path (advance m pt) = path m
  /\ supplyEvents (advance m pt) = supplyEvents m.
Proof. repeat split. Qed.

Lemma drive_home_logs (pts : list (@Point num)) (m : @MachineState num) :
  exists added,
    m_id (fold_left home_leg pts m) = m_id m
    /\ path (fold_left home_leg pts m) = path m ++ added
    /\ supplyEvents (fold_left home_leg pts m) = supplyEvents m
    /\ Forall (fun p => action p = road_travel) added
    /\ length added = length pts.
Proof.
  revert m. induction pts as [|pt pts IH]; intros m; cbn [fold_left].
  - exists []. rewrite app_nil_r. repeat split. constructor.
  - destruct (IH (home_leg m pt)) as (added & E1 & E2 & E3 & E4 & E5).
    eexists (_ :: added). rewrite E1, E2, E3. cbn [home_leg push_path path m_id supplyEvents].
    rewrite <- app_assoc. cbn [app]. repeat split.
    + constructor; [reflexivity|exact E4].
    + cbn. now rewrite E5.
Qed.

Lemma road_is_plain (l : list (@PathPoint num)) :
  Forall (fun p => action p = road_travel) l -> Forall (fun p => is_plain (action p) = true) l.
Proof. apply Forall_impl. intros p ->. reflexivity. Qed.

Lemma resupply_logs (m m' : @MachineState num) cap net :
  machine_logged sd base m ->
  resupply m cap sd net base = Some m' ->
  machine_logged sd base m' /\ m_id m' = m_id m.
Proof.
  intros (rest & Ep & Hl). unfold resupply. destruct (nltb _ _); [|intros [= <-]; split; [exists rest; auto|reflexivity]].
  destruct (findShortestPath _ _ _) as [returnPath|]; [|discriminate].
  intros [= <-]. unfold drive_home.
  destruct (drive_home_logs (tl returnPath) m) as (added & E1 & E2 & E3 & E4 & _).
  cbn [push_path push_supply set_time set_capacity set_position path supplyEvents m_id
       currentTime]. split; [|exact E1]. unfold machine_logged.
  cbn [push_path push_supply set_time set_capacity set_position path supplyEvents m_id
       currentTime]. rewrite E2, E3, Ep.
  eexists. split.
  - cbn [app]. rewrite <- !app_assoc. cbn [app]. reflexivity.
  - rewrite app_assoc. apply logged_supply. apply logged_plain_app; [exact Hl|].
    now apply road_is_plain.
Qed.

Lemma drive_to_field_logs (pts : list (@Point num)) (m : @MachineState num) segs :
  Forall (fun p => is_plain (action p) = true) segs ->
  m_id (fst (fold_left field_leg pts (m, segs))) = m_id m
  /\ path (fst (fold_left field_leg pts (m, segs))) = path m
  /\ supplyEvents (fst (fold_left field_leg pts (m, segs))) = supplyEvents m
  /\ Forall (fun p => is_plain (action p) = true) (snd (fold_left field_leg pts (m, segs))).
Proof.
  revert m segs. induction pts as [|pt pts IH]; intros m segs Hs; cbn [fold_left].
  - auto.
  - unfold field_leg at 2. cbn [fst snd].
    destruct (IH (advance m pt)
                (segs ++ [mkPathPoint (x (snapToGrid pt)) (y (snapToGrid pt))
                            (currentTime (advance m pt)) road_travel])) as (E1 & E2 & E3 & E4).
    + apply Forall_app. split; [exact Hs|]. repeat constructor.
    + auto.
Qed.

Lemma emergency_return_plain (pts : list (@Point num)) (m : @MachineState num) gp rt segs :
  Forall (fun p => is_plain (action p) = true) segs ->
  Forall (fun p => is_plain (action p) = true)
    (snd (fold_left (emergency_leg m gp) pts (rt, segs))).
Proof.
  revert rt segs. induction pts as [|pt pts IH]; intros rt segs Hs; cbn [fold_left]; [exact Hs|].
  unfold emergency_leg at 2. cbn [fst snd]. apply IH.
  apply Forall_app. split; [exact Hs|]. repeat constructor.
Qed.

Lemma work_points_plain (points : list (@Point num)) (m : @MachineState num) net bs q tau
    (acc r : @WorkResult num) :
  Forall (fun p => is_plain (action p) = true) (pathSegments acc) ->
  work_points m net bs q tau points acc = Some r ->
  Forall (fun p => is_plain (action p) = true) (pathSegments r).
Proof.
  revert acc. induction points as [|pt points IH]; intros acc Hs; cbn [work_points].
  - now intros [= <-].
  - destruct (nltb _ _).
    + destruct (findShortestPath _ _ _) as [returnPath|]; [|discriminate].
      intros [= <-]. cbn [pathSegments]. unfold emergency_return.
      apply emergency_return_plain. apply Forall_app. split; [exact Hs|]. repeat constructor.
    + apply IH. cbn [pathSegments]. apply Forall_app. split; [exact Hs|]. repeat constructor.
Qed.

Lemma executeFieldWork_logs fuel (m m1 : @MachineState num) fs cap net bs r :
  executeFieldWorkWithRoadNetwork fuel m fs cap net bs = Some (m1, r) ->
  m_id m1 = m_id m /\ path m1 = path m /\ supplyEvents m1 = supplyEvents m
  /\ Forall (fun p => is_plain (action p) = true) (pathSegments r).
Proof.
  unfold executeFieldWorkWithRoadNetwork. destruct (nleb _ _).
  - intros [= <- <-]. repeat split. constructor.
  - destruct (findShortestPath _ _ _) as [travelPath|]; [|discriminate].
    unfold drive_to_field.
    destruct (drive_to_field_logs (tl travelPath) m (segs := []) (Forall_nil _))
      as (E1 & E2 & E3 & E4).
    destruct (generateContinuousFieldWorkPath _ _ _ _) as [[|pt pts]|]; [| |discriminate].
    + intros [= <- <-]. cbn [set_position m_id path supplyEvents pathSegments].
      repeat split; auto. apply Forall_app. split; [exact E4|]. repeat constructor.
    + destruct (work_points _ _ _ _ _ _ _) as [r'|] eqn:W; [|discriminate].
      intros [= <- <-]. cbn [set_position m_id path supplyEvents].
      repeat split; auto. eapply work_points_plain; [|exact W].
      cbn [pathSegments]. apply Forall_app. split; [exact E4|]. repeat constructor.
Qed.

Lemma machine_turn_logs fuel cap net (m m' : @MachineState num) af af' :
  machine_logged sd base m ->
  machine_turn fuel cap sd net base m af = Some (m', af') ->
  machine_logged sd base m' /\ m_id m' = m_id m.
Proof.
  intros Hm. unfold machine_turn.
  destruct (resupply _ _ _ _ _) as [m1|] eqn:R; [|discriminate].
  destruct (resupply_logs _ _ Hm R) as [(rest & Ep & Hl) Eid].
  destruct (executeFieldWorkWithRoadNetwork _ _ _ _ _ _) as [[m2 r]|] eqn:W; [|discriminate].
  destruct (executeFieldWork_logs _ _ _ _ _ _ W) as (E1 & E2 & E3 & E4).
  intros [= <- _].
  cbn [push_path set_position set_time set_capacity path supplyEvents m_id].
  split; [|congruence]. unfold machine_logged.
  cbn [push_path set_position set_time set_capacity path supplyEvents m_id].
  rewrite E2, E3, Ep.
  eexists. split; [cbn [app]; reflexivity|]. now apply logged_plain_app.
Qed.

Lemma for_machines_logs fuel cap net now (ms ms' : list (@MachineState num)) fss fss' :
  Forall (machine_logged sd base) ms ->
  for_machines fuel cap sd net base now ms fss = Some (ms', fss') ->
  Forall (machine_logged sd base) ms' /\ map (@m_id num) ms' = map (@m_id num) ms.
Proof.
  revert fss ms' fss'. induction ms as [|m ms IH]; intros fss ms' fss' Hms; cbn [for_machines].
  - intros [= <- _]. auto.
  - inversion Hms as [|? ? Hm Hms']; subst. destruct (nltb _ _).
    + destruct (for_machines _ _ _ _ _ _ _ _) as [[rest' fss1]|] eqn:E; [|discriminate].
      intros [= <- _]. destruct (IH _ _ _ Hms' E) as [H1 H2].
      split; [constructor; assumption|cbn [map]; now rewrite H2].
    + destruct (find_available fss) as [[k af]|]; [|intros [= <- _]; auto].
      destruct (machine_turn _ _ _ _ _ _ _) as [[m1 af1]|] eqn:T; [|discriminate].
      destruct (for_machines _ _ _ _ _ _ _ _) as [[rest' fss1]|] eqn:E; [|discriminate].
      intros [= <- _]. destruct (IH _ _ _ Hms' E) as [H1 H2].
      destruct (machine_turn_logs _ _ _ _ Hm T) as [H3 H4].
      split; [constructor; assumption|cbn [map]; now rewrite H2, H4].
Qed.

Lemma schedule_loop_logs ticks fuel cap net now (ms ms' : list (@MachineState num)) fss fss' :
  Forall (machine_logged sd base) ms ->
  schedule_loop ticks fuel cap sd net base now ms fss = Some (ms', fss') ->
  Forall (machine_logged sd base) ms' /\ map (@m_id num) ms' = map (@m_id num) ms.
Proof.
  revert now ms fss. induction ticks as [|ticks IH]; intros now ms fss Hms;
    cbn [schedule_loop]; [discriminate|].
  destruct (_ && _); [|intros [= <- _]; auto].
  destruct (for_machines _ _ _ _ _ _ _ _) as [[ms1 fss1]|] eqn:E; [|discriminate].
  destruct (for_machines_logs _ _ _ _ _ Hms E) as [H1 H2].
  intros L. destruct (IH _ _ _ H1 L) as [H3 H4]. split; [exact H3|congruence].
Qed.

Lemma return_home_logs net (m m' : @MachineState num) :
  machine_logged sd base m -> return_home net base m = Some m' ->
  machine_returned sd base m' /\ m_id m' = m_id m.
Proof.
  intros (rest & Ep & Hl). unfold return_home. destruct (_ || _).
  - destruct (findShortestPath _ _ _) as [returnPath|]; [|discriminate].
    intros [= <-]. unfold drive_home.
    destruct (drive_home_logs (tl returnPath) m) as (added & E1 & E2 & E3 & E4 & _).
    split; [|exact E1]. unfold machine_returned.
    cbn [push_path path supplyEvents]. rewrite E2, E3, Ep.
    exists (rest ++ added). eexists. split; [|split].
    + cbn [app]. rewrite <- !app_assoc. reflexivity.
    + apply logged_plain_app; [exact Hl|]. now apply road_is_plain.
    + right. eexists. reflexivity.
  - intros [= <-]. split; [|reflexivity]. exists rest, []. rewrite app_nil_r. auto.
Qed.

Lemma return_all_logs net (ms ms' : list (@MachineState num)) :
  Forall (machine_logged sd base) ms -> return_all net base ms = Some ms' ->
  Forall (machine_returned sd base) ms' /\ map (@m_id num) ms' = map (@m_id num) ms.
Proof.
  revert ms'. induction ms as [|m ms IH]; intros ms' Hms; cbn [return_all].
  - intros [= <-]. auto.
  - inversion Hms as [|? ? Hm Hms']; subst.
    destruct (return_home _ _ _) as [m1|] eqn:R; [|discriminate].
    destruct (return_all _ _ _) as [rest'|] eqn:A; [|discriminate].
    intros [= <-]. destruct (return_home_logs _ Hm R) as [H1 H2].
    destruct (IH _ Hms' eq_refl) as [H3 H4].
    split; [constructor; assumption|cbn [map]; now rewrite H2, H4].
Qed.

(** *** What a log tells *)

Lemma supply_paired_app (l l' : list Action) :
  supply_paired l = true -> supply_paired l' = true -> supply_paired (l ++ l') = true.
Proof.
  intros H H'. remember (length l) as n eqn:L.
  assert (length l <= n)%nat as Ln by lia. clear L. revert l H Ln.
  induction n as [|n IH]; intros l H Ln.
  - destruct l; [exact H'|cbn in Ln; lia].
  - destruct l as [|a l]; [exact H'|]. cbn [length] in Ln.
    destruct a; cbn [app supply_paired] in *; try (apply IH; [exact H|lia]);
      try discriminate.
    destruct l as [|b l]; [discriminate|]. cbn [length] in Ln.
    destruct b; cbn [app] in *; try discriminate. apply IH; [exact H|lia].
Qed.

Lemma supply_paired_plain (l : list (@PathPoint num)) :
  Forall (fun p => is_plain (action p) = true) l -> supply_paired (map (@action num) l) = true.
Proof.
  induction 1 as [|p l Hp _ IH]; [reflexivity|]. cbn [map supply_paired].
  destruct (action p); try discriminate; exact IH.
Qed.

Lemma logged_tells ps evs :
  logged sd base ps evs ->
  Forall (fun p => action p <> start /\ action p <> return_
                   /\ (is_plain (action p) = false -> p_x p = x base /\ p_y p = y base)) ps
  /\ supply_paired (map (@action num) ps) = true
  /\ map (fun e => (time e, duration e)) evs
     = map (fun p => (timestamp p, sd)) (filter (@is_supply num) ps).
Proof.
  induction 1 as [|ps evs p _ (I1 & I2 & I3) Hp|ps evs t t' _ (I1 & I2 & I3)].
  - repeat split. constructor.
  - split; [|split].
    + apply Forall_app. split; [exact I1|]. constructor; [|constructor].
      destruct (action p); try discriminate; repeat split; congruence.
    + rewrite map_app. apply supply_paired_app; [exact I2|].
      cbn. destruct (action p); try discriminate; reflexivity.
    + assert (is_supply p = false) as Es
        by (unfold is_supply; destruct (action p); try discriminate; reflexivity).
      rewrite filter_app, map_app, I3. cbn [filter]. rewrite Es. cbn [map].
      now rewrite app_nil_r.
  - split; [|split].
    + apply Forall_app. split; [exact I1|].
      repeat constructor; cbn; congruence.
    + rewrite map_app. apply supply_paired_app; [exact I2|reflexivity].
    + rewrite filter_app, !map_app, I3. reflexivity.
Qed.

End Logged.

Section Results.

Context {num : Type} {J : JsNumber num}.

Lemma initial_machine_logged sd (base : @Point num) cap i :
  machine_logged sd base (initial_machine base cap i).
Proof. exists []. split; [reflexivity|constructor]. Qed.

(** The machines the simulation ends with. *)
Lemma simulate_logs ticks fuel (data : @ScheduleRequest num) net ms fss :
  simulate ticks fuel data = Some (net, ms, fss) ->
  generateFieldRoadNetwork fuel (fields data) (snapToGrid (req_baseStation data)) = Some net
  /\ Forall (machine_returned (supplyDuration (parameters data))
               (snapToGrid (req_baseStation data))) ms
  /\ map (@m_id num) ms = seq 1 (machineCount data).
Proof.
  unfold simulate.
  destruct (generateFieldRoadNetwork _ _ _) as [net0|]; [|discriminate].
  destruct (schedule_loop _ _ _ _ _ _ _ _ _) as [[ms1 fss1]|] eqn:L; [|discriminate].
  destruct (return_all _ _ _) as [ms2|] eqn:R; [|discriminate].
  intros [= <- <- <-]. split; [reflexivity|].
  apply schedule_loop_logs in L.
  - destruct L as [H1 H2]. eapply return_all_logs in R; [|exact H1].
    destruct R as [H3 H4]. split; [exact H3|]. rewrite H4, H2, map_map.
    rewrite <- seq_shift. apply map_ext. intros i. cbn [initial_machine m_id]. lia.
  - apply Forall_map, Forall_forall. intros i _. apply initial_machine_logged.
Qed.

Lemma result_of_simulate ticks fuel (data : @ScheduleRequest num) r :
  fields data <> [] -> generateScheduleWithRoadNetwork ticks fuel data = Some r ->
  exists net ms fss,
    simulate ticks fuel data = Some (net, ms, fss)
    /\ r = mkResult (map route_of ms)
             (ndiv (max_list (map (@currentTime num) ms)) (of_Z 60))
             (calculateEfficiency ms fss)
             (fold_left (fun sum machine => sum + length (supplyEvents machine))%nat ms 0%nat)
             (snapToGrid (req_baseStation data)) (map node_point net).
Proof.
  intros NE. unfold generateScheduleWithRoadNetwork.
  destruct (fields data) as [|f fs]; [congruence|].
  destruct (simulate ticks fuel data) as [[[net ms] fss]|]; [|discriminate].
  intros [= <-]. exists net, ms, fss. auto.
Qed.

Lemma count_events (ms : list (@MachineState num)) (a : nat) :
  fold_left (fun sum machine => sum + length (supplyEvents machine))%nat ms a
  = (a + length (concat (map (@supplyEvents num) ms)))%nat.
Proof.
  revert a. induction ms as [|m ms IH]; intros a; cbn [fold_left map concat].
  - cbn. lia.
  - rewrite IH, length_app. lia.
Qed.

(** X15.  The result has one route per machine, with the ids 1, 2, ... in
    order and the colour of the id in the palette of eight; its base station
    is the snapped one and its road network the places of the generated
    nodes.  On any number model. *)
Theorem result_routes_of_machines ticks fuel (data : @ScheduleRequest num) r :
  fields data <> [] -> generateScheduleWithRoadNetwork ticks fuel data = Some r ->
  map (@machineId num) (machines r) = seq 1 (machineCount data)
  /\ Forall (fun route =>
               color route = nth ((machineId route - 1) mod 8) colors ""%string)
            (machines r)
  /\ baseStation r = snapToGrid (req_baseStation data)
  /\ exists net,
       generateFieldRoadNetwork fuel (fields data) (snapToGrid (req_baseStation data))
       = Some net
       /\ roadNetwork r = map node_point net.
Proof.
  intros NE E. destruct (@result_of_simulate ticks fuel data r NE E) as (net & ms & fss & S & ->).
  destruct (@simulate_logs ticks fuel data net ms fss S) as (G & _ & Hid). cbn [machines baseStation roadNetwork].
  repeat split.
  - rewrite map_map. exact Hid.
  - apply Forall_map, Forall_forall. intros m _. reflexivity.
  - exists net. auto.
Qed.

(** X16.  The supply events of a route are its [supply] points, in order:
    each event has the timestamp of its point and the supply duration of
    the request; [totalSupplyEvents] counts the [supply] points of all
    routes.  On any number model. *)
Theorem supply_events_match_path ticks fuel (data : @ScheduleRequest num) r :
  fields data <> [] -> generateScheduleWithRoadNetwork ticks fuel data = Some r ->
  Forall (fun route =>
            map (fun e => (time e, duration e)) (r_supplyEvents route)
            = map (fun p => (timestamp p, supplyDuration (parameters data)))
                (filter (@is_supply num) (r_path route)))
         (machines r)
  /\ totalSupplyEvents r
     = length (filter (@is_supply num) (concat (map (@r_path num) (machines r)))).
Proof.
  intros NE E. destruct (@result_of_simulate ticks fuel data r NE E) as (net & ms & fss & S & ->).
  destruct (@simulate_logs ticks fuel data net ms fss S) as (_ & Hl & _). cbn [machines totalSupplyEvents].
  assert (Forall (fun m =>
                    map (fun e => (time e, duration e)) (supplyEvents m)
                    = map (fun p => (timestamp p, supplyDuration (parameters data)))
                        (filter (@is_supply num) (path m))) ms) as H.
  { eapply Forall_impl; [|exact Hl].
    intros m (rest & tail & Ep & Hlog & Ht). apply logged_tells in Hlog.
    destruct Hlog as (_ & _ & ->). rewrite Ep. cbn [filter]. unfold is_supply at 2.
    cbn [action Action_eqb]. rewrite filter_app.
    destruct Ht as [->|[t ->]]; cbn; now rewrite app_nil_r. }
  split.
  - apply Forall_map. exact H.
  - rewrite count_events, map_map. cbn [route_of r_path Nat.add].
    clear -H. induction H as [|m ms Hm _ IH]; [reflexivity|].
    cbn [map concat]. rewrite filter_app, !length_app, <- IH. f_equal.
    rewrite <- (length_map (fun e => (time e, duration e))), Hm. now rewrite length_map.
Qed.

(** X17.  Every route starts with the only [start] point, at the snapped
    base station and time 0; a [return] point can only be the last point;
    every [supply] is directly followed by a [supply_complete]; and the
    [supply], [supply_complete] and [return] points are at the base
    station.  On any number model. *)
Theorem route_path_shape ticks fuel (data : @ScheduleRequest num) r :
  fields data <> [] -> generateScheduleWithRoadNetwork ticks fuel data = Some r ->
  let base := snapToGrid (req_baseStation data) in
  Forall (fun route =>
            exists rest,
              r_path route = mkPathPoint (x base) (y base) (of_Z 0) start :: rest
              /\ Forall (fun p => action p <> start) rest
              /\ (forall pre p post,
                    rest = pre ++ p :: post -> action p = return_ -> post = [])
              /\ supply_paired (map (@action num) rest) = true
              /\ Forall (fun p => is_plain (action p) = false ->
                                  p_x p = x base /\ p_y p = y base) rest)
         (machines r).
Proof.
  intros NE E base. destruct (@result_of_simulate ticks fuel data r NE E) as (net & ms & fss & S & ->).
  destruct (@simulate_logs ticks fuel data net ms fss S) as (_ & Hl & _). cbn [machines].
  apply Forall_map. eapply Forall_impl; [|exact Hl]. fold base.
  intros m (rest & tail & Ep & Hlog & Ht). apply logged_tells in Hlog.
  destruct Hlog as (H1 & H2 & _). cbn [route_of r_path].
  exists (rest ++ tail). split; [exact Ep|]. rewrite Forall_forall in H1.
  split; [|split; [|split]].
  - apply Forall_app. split.
    + apply Forall_forall. intros p I. now destruct (H1 p I).
    + destruct Ht as [->|[t ->]]; repeat constructor. cbn. discriminate.
  - intros pre p post Eq Hp.
    destruct post as [|z post] using rev_ind; [reflexivity|]. exfalso. clear IHpost.
    assert (In p rest) as I.
    { destruct Ht as [->|[t ->]].
      - rewrite app_nil_r in Eq. rewrite Eq. apply in_elt.
      - change (pre ++ p :: post ++ [z]) with (pre ++ (p :: post) ++ [z]) in Eq.
        rewrite app_assoc in Eq. apply app_inj_tail in Eq. destruct Eq as [-> _].
        apply in_elt. }
    destruct (H1 p I) as (_ & N & _). congruence.
  - rewrite map_app. apply supply_paired_app; [exact H2|].
    destruct Ht as [->|[t ->]]; reflexivity.
  - apply Forall_app. split.
    + apply Forall_forall. intros p I. now destruct (H1 p I) as (_ & _ & H).
    + destruct Ht as [->|[t ->]]; repeat constructor.
Qed.

End Results.

(* ------------------------------------------------------------------ *)
(** ** Clocks and last timestamps *)

#[export] Instance binary64_clock : ClockFacts binary64.
Proof.
  split. intros a. cbn. apply Prim2SF_inj. rewrite !add_spec.
  change (Prim2SF (Binary64.of_Z 0)) with (S754_zero false).
  now destruct (Prim2SF a) as [[|]|[|]| |[|] m e].
Qed.

Section Synced.

Context {num : Type} {J : JsNumber num} {C : ClockFacts J}.
Local Open Scope js_scope.

Lemma agrees_app clock (l added : list (@PathPoint num)) :
  agrees clock added -> agrees clock (l ++ added).
Proof.
  intros (pre & p & -> & H). exists (l ++ pre), p. now rewrite app_assoc.
Qed.

Lemma agrees_last clock (l : list (@PathPoint num)) px py a :
  agrees clock (l ++ [mkPathPoint px py clock a]).
Proof. exists l, (mkPathPoint px py clock a). auto. Qed.

Lemma resupply_synced (m m' : @MachineState num) cap sd net base :
  clock_synced m -> resupply m cap sd net base = Some m' -> clock_synced m'.
Proof.
  intros Hm. unfold resupply. destruct (nltb _ _); [|now intros [= <-]].
  destruct (findShortestPath _ _ _) as [returnPath|]; [|discriminate].
  intros [= <-]. unfold clock_synced.
  cbn [push_path push_supply set_time set_capacity set_position path currentTime].
  apply agrees_last.
Qed.

(** The points logged after [capacity_full]: each is stamped with the start
    of the work plus the return time so far. *)
Lemma emergency_return_synced (pts : list (@Point num)) (m : @MachineState num) gp rt segs :
  (exists pre p, segs = pre ++ [p]
                 /\ (action p = capacity_full \/ timestamp p = currentTime m + rt)) ->
  exists pre p,
    snd (fold_left (emergency_leg m gp) pts (rt, segs)) = pre ++ [p]
    /\ (action p = capacity_full
        \/ timestamp p = currentTime m + fst (fold_left (emergency_leg m gp) pts (rt, segs))).
Proof.
  revert rt segs. induction pts as [|pt pts IH]; intros rt segs H; cbn [fold_left]; [exact H|].
  apply IH. unfold emergency_leg. cbn [fst snd]. eexists _, _. split; [reflexivity|].
  right. reflexivity.
Qed.

Lemma work_points_synced (points : list (@Point num)) (m : @MachineState num) net bs q tau
    (acc r : @WorkResult num) :
  agrees (currentTime m + workTime acc) (pathSegments acc) ->
  work_points m net bs q tau points acc = Some r ->
  agrees (currentTime m + workTime r) (pathSegments r).
Proof.
  revert acc. induction points as [|pt points IH]; intros acc Ha; cbn [work_points].
  - now intros [= <-].
  - destruct (nltb _ _).
    + destruct (findShortestPath _ _ _) as [returnPath|]; [|discriminate].
      intros [= <-]. cbn [pathSegments workTime]. unfold emergency_return.
      destruct (@emergency_return_synced (tl returnPath) m (snapToGrid pt)
                  (workTime acc + tau)
                  (pathSegments acc
                   ++ [mkPathPoint (x (snapToGrid pt)) (y (snapToGrid pt))
                         (currentTime m + workTime acc + tau) capacity_full]))
        as (pre & p & E & H).
      { eexists _, _. split; [reflexivity|]. left. reflexivity. }
      exists pre, p. split; [exact E|]. destruct H as [H|H]; [left; exact H|right; left].
      now rewrite H.
    + apply IH. cbn [pathSegments workTime]. apply agrees_last.
Qed.

(** A visit to a field either leaves the machine as it was and takes no
    time, or logs points the last of which agrees with the clock the machine
    gets. *)
Lemma executeFieldWork_synced fuel (m m1 : @MachineState num) fs cap net bs r :
  executeFieldWorkWithRoadNetwork fuel m fs cap net bs = Some (m1, r) ->
  path m1 = path m
  /\ ((pathSegments r = [] /\ workTime r = of_Z 0 /\ currentTime m1 = currentTime m)
      \/ agrees (currentTime m1 + workTime r) (pathSegments r)).
Proof.
  unfold executeFieldWorkWithRoadNetwork. destruct (nleb _ _).
  - intros [= <- <-]. auto.
  - destruct (findShortestPath _ _ _) as [travelPath|]; [|discriminate].
    unfold drive_to_field.
    destruct (drive_to_field_logs (tl travelPath) m (segs := []) (Forall_nil _))
      as (_ & E2 & _ & _).
    destruct (generateContinuousFieldWorkPath _ _ _ _) as [[|pt pts]|]; [| |discriminate].
    + intros [= <- <-]. cbn [set_position path pathSegments workTime currentTime].
      split; [exact E2|]. right. eexists _, _. split; [reflexivity|]. right. right. reflexivity.
    + destruct (work_points _ _ _ _ _ _ _) as [r'|] eqn:W; [|discriminate].
      intros [= <- <-]. cbn [set_position path]. split; [exact E2|]. right.
      apply work_points_synced in W; [exact W|].
      cbn [pathSegments workTime set_position currentTime].
      eexists _, _. split; [reflexivity|]. right. right. reflexivity.
Qed.

Lemma machine_turn_synced fuel cap sd net base (m m' : @MachineState num) af af' :
  clock_synced m -> machine_turn fuel cap sd net base m af = Some (m', af') ->
  clock_synced m'.
Proof.
  intros Hm. unfold machine_turn.
  destruct (resupply _ _ _ _ _) as [m1|] eqn:R; [|discriminate].
  assert (clock_synced m1) as H1 by (eapply resupply_synced; eassumption).
  destruct (executeFieldWorkWithRoadNetwork _ _ _ _ _ _) as [[m2 r]|] eqn:W; [|discriminate].
  pose proof W as W'. apply executeFieldWork_synced in W'.
  destruct W' as (Ep & [(E1 & E2 & E3)|H]).
  - intros [= <- _]. unfold clock_synced.
    cbn [push_path set_position set_time set_capacity path currentTime].
    rewrite E1, E2, E3, Ep, app_nil_r.
    destruct H1 as (pre & p & E & [H|[H|H]]); exists pre, p; (split; [exact E|]).
    + now left.
    + right. right. now rewrite H.
    + right. right. rewrite H. apply add_zero_twice.
  - intros [= <- _]. unfold clock_synced.
    cbn [push_path set_position set_time set_capacity path currentTime].
    now apply agrees_app.
Qed.

Lemma for_machines_synced fuel cap sd net base now (ms ms' : list (@MachineState num))
    fss fss' :
  Forall clock_synced ms ->
  for_machines fuel cap sd net base now ms fss = Some (ms', fss') ->
  Forall clock_synced ms'.
Proof.
  revert fss ms' fss'. induction ms as [|m ms IH]; intros fss ms' fss' Hms; cbn [for_machines].
  - now intros [= <- _].
  - inversion Hms as [|? ? Hm Hms']; subst. destruct (nltb _ _).
    + destruct (for_machines _ _ _ _ _ _ _ _) as [[rest' fss1]|] eqn:E; [|discriminate].
      intros [= <- _]. constructor; [exact Hm|]. eapply IH; eassumption.
    + destruct (find_available fss) as [[k af]|]; [|now intros [= <- _]].
      destruct (machine_turn _ _ _ _ _ _ _) as [[m1 af1]|] eqn:T; [|discriminate].
      destruct (for_machines _ _ _ _ _ _ _ _) as [[rest' fss1]|] eqn:E; [|discriminate].
      intros [= <- _]. constructor.
      * eapply machine_turn_synced; eassumption.
      * eapply IH; eassumption.
Qed.

Lemma schedule_loop_synced ticks fuel cap sd net base now (ms ms' : list (@MachineState num))
    fss fss' :
  Forall clock_synced ms ->
  schedule_loop ticks fuel cap sd net base now ms fss = Some (ms', fss') ->
  Forall clock_synced ms'.
Proof.
  revert now ms fss. induction ticks as [|ticks IH]; intros now ms fss Hms;
    cbn [schedule_loop]; [discriminate|].
  destruct (_ && _); [|now intros [= <- _]].
  destruct (for_machines _ _ _ _ _ _ _ _) as [[ms1 fss1]|] eqn:E; [|discriminate].
  apply IH. eapply for_machines_synced; eassumption.
Qed.

Lemma return_home_synced net base (m m' : @MachineState num) :
  clock_synced m -> return_home net base m = Some m' -> clock_synced m'.
Proof.
  intros Hm. unfold return_home. destruct (_ || _); [|now intros [= <-]].
  destruct (findShortestPath _ _ _) as [returnPath|]; [|discriminate].
  intros [= <-]. unfold clock_synced. cbn [push_path path currentTime]. apply agrees_last.
Qed.

Lemma return_all_synced net base (ms ms' : list (@MachineState num)) :
  Forall clock_synced ms -> return_all net base ms = Some ms' -> Forall clock_synced ms'.
Proof.
  revert ms'. induction ms as [|m ms IH]; intros ms' Hms; cbn [return_all].
  - now intros [= <-].
  - inversion Hms as [|? ? Hm Hms']; subst.
    destruct (return_home _ _ _) as [m1|] eqn:R; [|discriminate].
    destruct (return_all _ _ _) as [rest'|] eqn:A; [|discriminate].
    intros [= <-]. constructor.
    + eapply return_home_synced; eassumption.
    + now apply IH.
Qed.

Lemma simulate_synced ticks fuel (data : @ScheduleRequest num) net ms fss :
  simulate ticks fuel data = Some (net, ms, fss) -> Forall clock_synced ms.
Proof.
  unfold simulate.
  destruct (generateFieldRoadNetwork _ _ _) as [net0|]; [|discriminate].
  destruct (schedule_loop _ _ _ _ _ _ _ _ _) as [[ms1 fss1]|] eqn:L; [|discriminate].
  destruct (return_all _ _ _) as [ms2|] eqn:R; [|discriminate].
  intros [= _ <- _]. eapply return_all_synced; [|exact R].
  eapply schedule_loop_synced; [|exact L].
  apply Forall_map, Forall_forall. intros i _. unfold clock_synced.
  cbn [initial_machine path currentTime]. eexists [], _. split; [reflexivity|]. right. left. reflexivity.
Qed.

(** C1, as the code computes it.  [totalTime] is the largest of the final
    clocks of the machines, divided by 60, and the final clock of a machine
    is the timestamp of the last point of its route (or that timestamp plus
    zero, which differs from it for a negative zero only), unless that point
    is a [capacity_full] point.  On any number model on which adding zero
    twice is adding it once, as on binary64. *)
Theorem C1_total_time_in_minutes (ticks fuel : nat) (data : @ScheduleRequest num)
    (r : @ScheduleResult num) :
  fields data <> [] -> machineCount data <> 0 ->
  generateScheduleWithRoadNetwork ticks fuel data = Some r ->
  exists clocks : list num,
    totalTime r = max_list clocks / of_Z 60
    /\ length clocks = machineCount data
    /\ Forall2 (fun route clock => agrees clock (r_path route)) (machines r) clocks.
Proof.
  intros NE _ E.
  destruct (@result_of_simulate num J ticks fuel data r NE E) as (net & ms & fss & S & ->).
  exists (map (@currentTime num) ms). cbn [totalTime machines]. split; [reflexivity|]. split.
  - destruct (@simulate_logs num J ticks fuel data net ms fss S) as (_ & _ & Hid).
    rewrite length_map, <- (length_map (@m_id num)), Hid. apply length_seq.
  - apply simulate_synced in S. clear E.
    induction S as [|m ms Hm _ IH]; cbn [map]; constructor; [exact Hm|exact IH].
Qed.

End Synced.

Lemma C1_total_time_in_minutes_witness :
  exists r,
    generateScheduleWithRoadNetwork 481 100 (Scenario.single_field 0.5) = Some r
    /\ exists clocks : list float,
         totalTime r = (max_list clocks / of_Z 60)%js
         /\ length clocks = 1
         /\ Forall2 (fun route clock => agrees clock (r_path route)) (machines r) clocks.
Proof.
  destruct single_field_half_result as (r & E & _).
  exists r. split; [exact E|].
  apply (@C1_total_time_in_minutes float binary64 binary64_clock 481 100
           (Scenario.single_field 0.5) r).
  - discriminate.
  - discriminate.
  - exact E.
Defined.

Section Order.

Context {num : Type} {J : JsNumber num}.

Lemma find_available_before (fss : list (@FieldWorkState num)) k af :
  find_available fss = Some (k, af) ->
  forall i fi, (i < k)%nat -> nth_error fss i = Some fi -> isCompleted fi = true.
Proof.
  revert k. induction fss as [|fs fss IH]; intros k; cbn [find_available]; [discriminate|].
  destruct (isCompleted fs) eqn:C; cbn [negb].
  - destruct (find_available fss) as [[k' a]|]; [|discriminate].
    intros [= <- <-] i fi L N. destruct i as [|i]; cbn in N.
    + now injection N as <-.
    + apply (IH k' eq_refl i fi); [lia|exact N].
  - intros [= <- <-] i fi L. lia.
Qed.

Lemma map_set_nth {A B} (f : A -> B) (l : list A) k v a :
  nth_error l k = Some a -> f v = f a -> map f (set_nth l k v) = map f l.
Proof.
  revert k. induction l as [|b l IH]; intros [|k]; cbn; try discriminate.
  - intros [= ->] ->. reflexivity.
  - intros N E. f_equal. now apply IH.
Qed.

Lemma nth_error_set_nth_same {A} (l : list A) k v a :
  nth_error l k = Some a -> nth_error (set_nth l k v) k = Some v.
Proof.
  revert k. induction l as [|b l IH]; intros [|k]; cbn; try discriminate; auto.
Qed.

Lemma machine_turn_field fuel cap sd net base (m m' : @MachineState num) af af' :
  machine_turn fuel cap sd net base m af = Some (m', af') ->
  field af' = field af
  /\ isCompleted af'
     = (if nleb (dec 99 100) (completedPercentage af') then true else isCompleted af).
Proof.
  unfold machine_turn. destruct (resupply _ _ _ _ _); [|discriminate].
  destruct (executeFieldWorkWithRoadNetwork _ _ _ _ _ _) as [[m2 r]|]; [|discriminate].
  intros [= _ <-]. split; reflexivity.
Qed.

Lemma turn_in_order fields fss k af af' :
  worked_in_order fields fss -> find_available fss = Some (k, af) ->
  field af' = field af ->
  isCompleted af'
  = (if nleb (dec 99 100) (completedPercentage af') then true else isCompleted af) ->
  worked_in_order fields (set_nth fss k af').
Proof.
  intros (Hf & Ho & Hc) Hk Ef Ec.
  destruct (find_available_spec _ Hk) as [Nk Hnot].
  pose proof (find_available_before _ Hk) as Hbefore.
  split; [|split].
  - rewrite <- Hf. now apply map_set_nth with (a := af).
  - intros i j fi fj L Ni Nj.
    destruct (Nat.eq_dec j k) as [->|Nj'].
    + rewrite set_nth_other in Ni by lia. left. eapply Hbefore; eassumption.
    + rewrite set_nth_other in Nj by exact Nj'.
      destruct (Nat.eq_dec i k) as [->|Ni'].
      * right. destruct (Ho k j af fj L Nk Nj) as [C|U]; [congruence|exact U].
      * rewrite set_nth_other in Ni by exact Ni'. eapply Ho; eassumption.
  - apply Forall_set_nth; [exact Hc|]. right. rewrite Ec, Hnot.
    now destruct (nleb _ _).
Qed.

Lemma reach_in_order fuel cap sd net base fields ms0 fss0 st :
  worked_in_order fields fss0 ->
  reach fuel cap sd net base (ms0, fss0) st ->
  worked_in_order fields (snd st).
Proof.
  intros H0 R. induction R as [|ms fss j m k af m' af' R IH Hj Hk Ht]; [exact H0|].
  cbn [snd] in *. destruct (machine_turn_field _ _ _ _ _ _ _ Ht) as [Ef Ec].
  eapply turn_in_order; eassumption.
Qed.

Lemma initial_in_order (fields : list (@Field num)) :
  worked_in_order fields (map initial_field fields).
Proof.
  split; [|split].
  - rewrite map_map. cbn. apply map_id.
  - intros i j fi fj _ _ Nj. right. apply nth_error_In, in_map_iff in Nj.
    destruct Nj as (f & <- & _). reflexivity.
  - apply Forall_map, Forall_forall. intros f _. now left.
Qed.

(** X14.  The fields are worked on in the order of the request: in every
    state the simulation passes through, and in the state it ends in, the
    field states are those of the request's fields, a field that comes
    after one that is not completed is untouched, and the flag of a field
    that was worked on tells whether its fraction has reached 0.99.  On any
    number model. *)
Theorem fields_are_worked_in_order (data : @ScheduleRequest num) fuel roadNetwork :
  let capacity := machineCapacity (parameters data) in
  let supply_time := supplyDuration (parameters data) in
  let base := snapToGrid (req_baseStation data) in
  let init :=
    (map (initial_machine base capacity) (seq 0 (machineCount data)),
     map (@initial_field num J) (fields data)) in
  (forall ms fss,
     reach fuel capacity supply_time roadNetwork base init (ms, fss) ->
     worked_in_order (fields data) fss)
  /\ (forall ticks ms fss,
        simulate ticks fuel data = Some (roadNetwork, ms, fss) ->
        worked_in_order (fields data) fss).
Proof.
  intros capacity supply_time base init.
  assert (forall ms fss,
            reach fuel capacity supply_time roadNetwork base init (ms, fss) ->
            worked_in_order (fields data) fss) as G.
  { intros ms fss R. apply (reach_in_order (initial_in_order (fields data))) in R. exact R. }
  split; [exact G|].
  intros ticks ms fss. unfold simulate.
  destruct (generateFieldRoadNetwork _ _ _) as [net0|]; [|discriminate].
  destruct (schedule_loop _ _ _ _ _ _ _ _ _) as [[ms1 fss1]|] eqn:L; [|discriminate].
  destruct (return_all _ _ _) as [ms2|]; [|discriminate].
  intros [= -> <- <-]. apply (G ms1). eapply schedule_loop_reach; [|exact L].
  apply reach_init.
Qed.

End Order.


Lemma one_field_network :
  exists roadNetwork,
    generateFieldRoadNetwork 20 Example.one_field Example.below = Some roadNetwork.
Proof. eexists. vm_compute. reflexivity. Qed.

Lemma road_nodes_outside_or_corner_witness :
  exists roadNetwork,
    generateFieldRoadNetwork 20 Example.one_field Example.below = Some roadNetwork
    /\ Forall (fun n =>
                 (isPointInsideAnyField (node_point n) Example.one_field = false
                  \/ exists f, In f Example.one_field /\ In (node_point n) (corners f))
                 /\ n_id n = key_of (n_x n) (n_y n))
              roadNetwork.
Proof.
  destruct one_field_network as [net E]. exists net. split; [exact E|].
  exact (@road_nodes_outside_or_corner float binary64 20 Example.one_field Example.below net E).
Defined.

Lemma base_and_corners_are_nodes_witness :
  exists roadNetwork,
    generateFieldRoadNetwork 20 Example.one_field Example.below = Some roadNetwork
    /\ (isPointInsideAnyField Example.below Example.one_field = false ->
        exists n, In n roadNetwork
                  /\ same_key (key_of (x Example.below) (y Example.below))
                       (key_of (n_x n) (n_y n)) = true)
    /\ forall f c, In f Example.one_field -> In c (corners f) ->
         exists n, In n roadNetwork
                   /\ same_key (key_of (x c) (y c)) (key_of (n_x n) (n_y n)) = true.
Proof.
  destruct one_field_network as [net E]. exists net. split; [exact E|].
  exact (@base_and_corners_are_nodes float binary64 binary64_keys 20 Example.one_field
           Example.below net E).
Defined.

Lemma findShortestPath_ignores_connections_witness :
  findShortestPath (mkPoint 1 1)%float (mkPoint 9 1)%float Example.apart
  = findShortestPath (mkPoint 1 1)%float (mkPoint 9 1)%float Example.linked
  /\ forall path,
       findShortestPath (mkPoint 1 1)%float (mkPoint 9 1)%float Example.apart = Some path ->
       length path <= 2 /\ incl path (map node_point Example.apart).
Proof.
  exact (@findShortestPath_ignores_connections float binary64 binary64_facts
           (mkPoint 1 1)%float (mkPoint 9 1)%float Example.apart Example.linked eq_refl).
Defined.

Lemma result_routes_of_machines_witness :
  exists r,
    generateScheduleWithRoadNetwork 481 100 (Scenario.single_field 0.5) = Some r
    /\ map (@machineId float) (machines r) = seq 1 (machineCount (Scenario.single_field 0.5))
    /\ Forall (fun route =>
                 color route = nth ((machineId route - 1) mod 8) colors ""%string)
              (machines r)
    /\ baseStation r = snapToGrid (req_baseStation (Scenario.single_field 0.5))
    /\ exists net,
         generateFieldRoadNetwork 100 (fields (Scenario.single_field 0.5))
           (snapToGrid (req_baseStation (Scenario.single_field 0.5))) = Some net
         /\ roadNetwork r = map node_point net.
Proof.
  destruct single_field_half_result as (r & E & _). exists r. split; [exact E|].
  apply (@result_routes_of_machines float binary64 481 100 (Scenario.single_field 0.5) r);
    [discriminate|exact E].
Defined.

Lemma supply_events_match_path_witness :
  exists r,
    generateScheduleWithRoadNetwork 481 100 (Scenario.single_field 0.5) = Some r
    /\ Forall (fun route =>
                 map (fun e => (time e, duration e)) (r_supplyEvents route)
                 = map (fun p => (timestamp p,
                                  supplyDuration (parameters (Scenario.single_field 0.5))))
                     (filter (@is_supply float) (r_path route)))
              (machines r)
    /\ totalSupplyEvents r
       = length (filter (@is_supply float) (concat (map (@r_path float) (machines r)))).
Proof.
  destruct single_field_half_result as (r & E & _). exists r. split; [exact E|].
  apply (@supply_events_match_path float binary64 481 100 (Scenario.single_field 0.5) r);
    [discriminate|exact E].
Defined.

Lemma route_path_shape_witness :
  exists r,
    generateScheduleWithRoadNetwork 481 100 (Scenario.single_field 0.5) = Some r
    /\ let base := snapToGrid (req_baseStation (Scenario.single_field 0.5)) in
       Forall (fun route =>
                 exists rest,
                   r_path route = mkPathPoint (x base) (y base) (of_Z 0) start :: rest
                   /\ Forall (fun p => action p <> start) rest
                   /\ (forall pre p post,
                         rest = pre ++ p :: post -> action p = return_ -> post = [])
                   /\ supply_paired (map (@action float) rest) = true
                   /\ Forall (fun p => is_plain (action p) = false ->
                                       p_x p = x base /\ p_y p = y base) rest)
              (machines r).
Proof.
  destruct single_field_half_result as (r & E & _). exists r. split; [exact E|].
  apply (@route_path_shape float binary64 481 100 (Scenario.single_field 0.5) r);
    [discriminate|exact E].
Defined.


(* ------------------------------------------------------------------ *)
(** ** A field that is never completed *)

Section Stall.

Local Open Scope float_scope.

(** With at most 0.05 available the visit is over at once. *)
Lemma executeFieldWork_idle fuel (m : @MachineState float) fs cap net bs :
  (nmin (currentCapacity m) (remainingWork fs) <=? dec 5 100)%js = true ->
  executeFieldWorkWithRoadNetwork fuel m fs cap net bs
  = Some (m, mkWork [] (position m) (of_Z 0) (of_Z 0) []).
Proof.
  intros H. unfold executeFieldWorkWithRoadNetwork. unfold remainingWork in H.
  now rewrite H.
Qed.

Lemma machine_turn_idle fuel C sd net base (m m1 : @MachineState float) af :
  resupply m C sd net base = Some m1 ->
  (nmin (currentCapacity m1) (remainingWork af) <=? dec 5 100)%js = true ->
  exists m' af',
    machine_turn fuel C sd net base m af = Some (m', af')
    /\ currentCapacity m' = currentCapacity m1
    /\ completedPercentage af' = completedPercentage af + 0
    /\ isCompleted af'
       = (if nleb (dec 99 100) (completedPercentage af + 0) then true else isCompleted af).
Proof.
  intros R H. unfold machine_turn. rewrite R, (@executeFieldWork_idle fuel m1 af C net base H).
  eexists _, _. split; [reflexivity|].
  cbn [push_path set_position set_time set_capacity record_work capacityUsed
       completedPercentage isCompleted currentCapacity].
  split; [apply sub_zero_r|]. split; reflexivity.
Qed.

Lemma resupply_load (m m' : @MachineState float) C sd net base :
  resupply m C sd net base = Some m' ->
  currentCapacity m' = C \/ currentCapacity m' = currentCapacity m.
Proof.
  unfold resupply. destruct (nltb _ _); [|intros [= <-]; now right].
  destruct (findShortestPath _ _ _); [|discriminate].
  intros [= <-]. now left.
Qed.

(** A fraction whose remaining work is at most 0.05 is no zero. *)
Lemma nearly_done_not_zero (fs : @FieldWorkState float) :
  (remainingWork fs <=? dec 5 100)%js = true ->
  completedPercentage fs + 0 = completedPercentage fs.
Proof.
  intros H. apply add_zero_r. intros N. unfold remainingWork in H.
  change (@of_Z float binary64 1) with 1 in H. change (@nsub float binary64) with sub in H.
  rewrite (@one_minus_zero _ _ N) in H. vm_compute in H. discriminate.
Qed.

Lemma machine_turn_stalls fuel C sd net base (m m' : @MachineState float) af af' :
  is_nan C = false -> is_load m ->
  (remainingWork af <=? dec 5 100)%js = true ->
  (dec 99 100 <=? completedPercentage af)%js = false ->
  machine_turn fuel C sd net base m af = Some (m', af') ->
  is_load m'
  /\ completedPercentage af' = completedPercentage af
  /\ isCompleted af' = isCompleted af.
Proof.
  intros NC Hm Hr H99 T.
  destruct (resupply m C sd net base) as [m1|] eqn:R;
    [|unfold machine_turn in T; rewrite R in T; discriminate].
  assert (is_nan (currentCapacity m1) = false) as N1
    by (pose proof R as R'; apply resupply_load in R'; destruct R' as [-> | ->]; assumption).
  destruct (@leb_not_nan _ _ Hr) as [Nr _].
  assert ((nmin (currentCapacity m1) (remainingWork af) <=? dec 5 100)%js = true) as H.
  { eapply leb_trans; [|exact Hr]. now apply min_le_r. }
  destruct (@machine_turn_idle fuel C sd net base m m1 af R H) as (m2 & af2 & T2 & E1 & E2 & E3).
  rewrite T2 in T. injection T as <- <-.
  rewrite (@nearly_done_not_zero af Hr) in E2, E3. rewrite H99 in E3.
  unfold is_load. rewrite E1. auto.
Qed.

Lemma find_available_set_nth (fss : list (@FieldWorkState float)) k af af' :
  find_available fss = Some (k, af) -> isCompleted af' = false ->
  find_available (set_nth fss k af') = Some (k, af').
Proof.
  revert k. induction fss as [|fs fss IH]; intros k; cbn [find_available]; [discriminate|].
  destruct (isCompleted fs) eqn:C; cbn [negb].
  - destruct (find_available fss) as [[k' a]|] eqn:F; [|discriminate].
    intros [= <- <-] Ha. cbn [set_nth find_available]. rewrite C. cbn [negb].
    now rewrite (IH k' eq_refl Ha).
  - intros [= <- <-] Ha. cbn [set_nth find_available]. now rewrite Ha.
Qed.

Lemma progress_set_nth (fss : list (@FieldWorkState float)) k af af' :
  nth_error fss k = Some af ->
  completedPercentage af' = completedPercentage af -> isCompleted af' = isCompleted af ->
  progress (set_nth fss k af') = progress fss.
Proof.
  intros N E1 E2. unfold progress. apply map_set_nth with (a := af); [exact N|].
  now rewrite E1, E2.
Qed.

Lemma for_machines_stalls fuel C sd net base now (ms ms' : list (@MachineState float))
    fss fss' k af :
  is_nan C = false -> Forall is_load ms ->
  find_available fss = Some (k, af) ->
  (remainingWork af <=? dec 5 100)%js = true ->
  (dec 99 100 <=? completedPercentage af)%js = false ->
  for_machines fuel C sd net base now ms fss = Some (ms', fss') ->
  Forall is_load ms' /\ progress fss' = progress fss
  /\ exists af', find_available fss' = Some (k, af')
                 /\ completedPercentage af' = completedPercentage af.
Proof.
  intros NC Hms. revert ms' fss fss' af.
  induction Hms as [|m ms Hm Hms IH]; intros ms' fss fss' af Hk Hr H99; cbn [for_machines].
  - intros [= <- <-]. eauto.
  - destruct (nltb _ _).
    + destruct (for_machines _ _ _ _ _ _ _ _) as [[rest' fss1]|] eqn:E; [|discriminate].
      intros [= <- <-]. destruct (IH _ _ _ _ Hk Hr H99 E) as (H1 & H2 & H3).
      split; [constructor; assumption|]. auto.
    + rewrite Hk.
      destruct (machine_turn _ _ _ _ _ _ _) as [[m1 af1]|] eqn:T; [|discriminate].
      destruct (@machine_turn_stalls fuel C sd net base m m1 af af1 NC Hm Hr H99 T) as (Hm1 & E1 & E2).
      destruct (find_available_spec _ Hk) as [Nk Hnot].
      destruct (for_machines _ _ _ _ _ _ _ _) as [[rest' fss1]|] eqn:E; [|discriminate].
      intros [= <- <-].
      assert (find_available (set_nth fss k af1) = Some (k, af1)) as Hk1
        by (apply find_available_set_nth with (af := af); [exact Hk|congruence]).
      assert ((remainingWork af1 <=? dec 5 100)%js = true) as Hr1
        by (unfold remainingWork in *; now rewrite E1).
      assert ((dec 99 100 <=? completedPercentage af1)%js = false) as H991
        by now rewrite E1.
      destruct (IH _ _ _ _ Hk1 Hr1 H991 E) as (H1 & H2 & af2 & H3 & H4).
      split; [constructor; assumption|]. split.
      * rewrite H2. apply progress_set_nth with (af := af); congruence.
      * exists af2. split; [exact H3|congruence].
Qed.

(** X12.  On binary64, once the work that remains on the first field that
    is not completed is at most 0.05 while its fraction is below 0.99, the
    scheduling loop changes the fraction and the flag of no field any more,
    whatever machines whose loads are numbers it is run with. *)
Theorem schedule_stalls_below_completion ticks fuel C sd net base now
    (ms ms' : list (@MachineState float)) fss fss' k af :
  is_nan C = false -> Forall is_load ms ->
  find_available fss = Some (k, af) ->
  (remainingWork af <=? dec 5 100)%js = true ->
  (dec 99 100 <=? completedPercentage af)%js = false ->
  schedule_loop ticks fuel C sd net base now ms fss = Some (ms', fss') ->
  progress fss' = progress fss.
Proof.
  intros NC. revert now ms fss af.
  induction ticks as [|ticks IH]; intros now ms fss af Hms Hk Hr H99;
    cbn [schedule_loop]; [discriminate|].
  destruct (_ && _); [|now intros [= <- <-]].
  destruct (for_machines _ _ _ _ _ _ _ _) as [[ms1 fss1]|] eqn:E; [|discriminate].
  destruct (@for_machines_stalls fuel C sd net base now ms ms1 fss fss1 k af NC Hms Hk Hr H99 E) as (H1 & H2 & af1 & Hk1 & E1).
  intros L. rewrite <- H2.
  eapply IH; [exact H1|exact Hk1|unfold remainingWork in *; now rewrite E1|now rewrite E1|exact L].
Qed.

End Stall.


(** The state of the theorem above is reached from the settings the page
    starts with: one machine of capacity 1 leaves the field of 100 by 80 at
    31 of its 32 points, and the run ends with the field at 0.96875, not
    completed, after one supply stop. *)
Lemma default_capacity_run :
  option_map (fun s => match s with
                       | (_, ms, fss) =>
                           (map (fun m => length (supplyEvents m)) ms,
                            map (fun fs => (completedPercentage fs, isCompleted fs)) fss)
                       end)
    (simulate 481 100 (Scenario.single_field 1))
  = Some ([1], [(0.96875%float, false)]).
Proof. vm_cast_no_check (eq_refl (Some ([1], [(0.96875%float, false)]))). Qed.

Lemma nearly_done_run :
  option_map (fun _ => tt)
    (schedule_loop 481 100 1 30 Example.apart (mkPoint 50 40) 0 Example.waiting
       Example.nearly_done)%float
  = Some tt.
Proof. vm_cast_no_check (eq_refl (Some tt)). Qed.

Lemma schedule_stalls_below_completion_witness :
  exists ms' fss',
    (schedule_loop 481 100 1 30 Example.apart (mkPoint 50 40) 0 Example.waiting
       Example.nearly_done)%float = Some (ms', fss')
    /\ progress fss' = progress Example.nearly_done.
Proof.
  pose proof nearly_done_run as R.
  destruct (schedule_loop 481 100 1 30 Example.apart (mkPoint 50 40) 0 Example.waiting
              Example.nearly_done)%float as [[ms' fss']|] eqn:E; [|discriminate R].
  exists ms', fss'. split; [reflexivity|].
  apply (@schedule_stalls_below_completion 481 100 1 30 Example.apart (mkPoint 50 40) 0
           Example.waiting ms' Example.nearly_done fss' 0
           (mkFieldState (mkField 1 0 0 100 80) 0.96875 false None [] None []))%float.
  - reflexivity.
  - repeat constructor.
  - reflexivity.
  - reflexivity.
  - reflexivity.
  - exact E.
Defined.

(* ------------------------------------------------------------------ *)
(** ** A capacity too small to work with *)

Section TinyCapacity.

Local Open Scope float_scope.

Variable fields0 : list (@Field float).
Variable C : float.
Hypothesis tiny : (C <=? dec 5 100)%js = true.

Lemma untouched_nth fss k af :
  untouched fields0 fss -> nth_error fss k = Some af ->
  completedPercentage af = 0 /\ isCompleted af = false.
Proof.
  unfold untouched, progress. intros U N.
  apply (map_nth_error (fun fs => (completedPercentage fs, isCompleted fs))) in N.
  rewrite U, nth_error_map in N.
  destruct (nth_error fields0 k); [|discriminate]. cbn [option_map] in N.
  injection N as E1 E2. split; [exact (eq_sym E1)|exact (eq_sym E2)].
Qed.

Lemma machine_turn_tiny fuel sd net base (m m' : @MachineState float) af af' :
  currentCapacity m = C ->
  completedPercentage af = 0 -> isCompleted af = false ->
  machine_turn fuel C sd net base m af = Some (m', af') ->
  currentCapacity m' = C /\ completedPercentage af' = 0 /\ isCompleted af' = false.
Proof.
  intros Ec E0 Ef T.
  destruct (resupply m C sd net base) as [m1|] eqn:R;
    [|unfold machine_turn in T; rewrite R in T; discriminate].
  assert (currentCapacity m1 = C) as E1
    by (pose proof R as R'; apply resupply_load in R'; destruct R' as [-> | ->]; auto).
  destruct (@leb_not_nan _ _ tiny) as [NC _].
  assert ((nmin (currentCapacity m1) (remainingWork af) <=? dec 5 100)%js = true) as H.
  { unfold remainingWork. rewrite E1, E0.
    change (nmax (of_Z 0) (of_Z 1 - 0)%js) with 1.
    eapply leb_trans; [|exact tiny]. now apply min_le_l. }
  destruct (@machine_turn_idle fuel C sd net base m m1 af R H) as (m2 & af2 & T2 & H1 & H2 & H3).
  rewrite T2 in T. injection T as <- <-. rewrite E0 in H2, H3. rewrite Ef in H3.
  split; [congruence|]. split; [exact H2|exact H3].
Qed.

Lemma for_machines_tiny fuel sd net base now (ms ms' : list (@MachineState float)) fss fss' :
  Forall (fun m => currentCapacity m = C) ms -> untouched fields0 fss ->
  for_machines fuel C sd net base now ms fss = Some (ms', fss') ->
  Forall (fun m => currentCapacity m = C) ms' /\ untouched fields0 fss'.
Proof.
  intros Hms. revert ms' fss fss'.
  induction Hms as [|m ms Hm Hms IH]; intros ms' fss fss' U; cbn [for_machines].
  - intros [= <- <-]. auto.
  - destruct (nltb _ _).
    + destruct (for_machines _ _ _ _ _ _ _ _) as [[rest' fss1]|] eqn:E; [|discriminate].
      intros [= <- <-]. destruct (IH _ _ _ U E) as (H1 & H2).
      split; [constructor; assumption|exact H2].
    + destruct (find_available fss) as [[k af]|] eqn:Hk; [|intros [= <- <-]; auto].
      destruct (find_available_spec _ Hk) as [Nk _].
      destruct (untouched_nth _ U Nk) as [E0 Ef].
      destruct (machine_turn _ _ _ _ _ _ _) as [[m1 af1]|] eqn:T; [|discriminate].
      destruct (@machine_turn_tiny fuel sd net base m m1 af af1 Hm E0 Ef T) as (H1 & H2 & H3).
      destruct (for_machines _ _ _ _ _ _ _ _) as [[rest' fss1]|] eqn:E; [|discriminate].
      intros [= <- <-].
      assert (untouched fields0 (set_nth fss k af1)) as U1.
      { unfold untouched. rewrite <- U. apply progress_set_nth with (af := af); congruence. }
      destruct (IH _ _ _ U1 E) as (H4 & H5). split; [constructor; assumption|exact H5].
Qed.

Lemma schedule_loop_tiny ticks fuel sd net base now (ms ms' : list (@MachineState float))
    fss fss' :
  Forall (fun m => currentCapacity m = C) ms -> untouched fields0 fss ->
  schedule_loop ticks fuel C sd net base now ms fss = Some (ms', fss') ->
  untouched fields0 fss'.
Proof.
  revert now ms fss. induction ticks as [|ticks IH]; intros now ms fss Hms U;
    cbn [schedule_loop]; [discriminate|].
  destruct (_ && _); [|now intros [= <- <-]].
  destruct (for_machines _ _ _ _ _ _ _ _) as [[ms1 fss1]|] eqn:E; [|discriminate].
  destruct (@for_machines_tiny fuel sd net base now ms ms1 fss fss1 Hms U E) as (H1 & H2).
  intros L. eapply IH; eassumption.
Qed.

End TinyCapacity.

(** X13.  On binary64, with a machine capacity of at most 0.05 the
    simulation ends with every field at fraction 0 and not completed. *)
Theorem tiny_capacity_never_works (data : @ScheduleRequest float) ticks fuel
    roadNetwork ms fss :
  (machineCapacity (parameters data) <=? dec 5 100)%js = true ->
  simulate ticks fuel data = Some (roadNetwork, ms, fss) ->
  progress fss = map (fun _ => (of_Z 0, false)) (fields data).
Proof.
  intros T. unfold simulate.
  destruct (generateFieldRoadNetwork _ _ _) as [net|]; [|discriminate].
  destruct (schedule_loop _ _ _ _ _ _ _ _ _) as [[ms1 fss1]|] eqn:L; [|discriminate].
  destruct (return_all _ _ _) as [ms2|]; [|discriminate].
  intros [= _ _ <-].
  eapply (@schedule_loop_tiny (fields data) (machineCapacity (parameters data)) T); [| |exact L].
  - apply Forall_map, Forall_forall. intros i _. reflexivity.
  - unfold untouched, progress. rewrite map_map. reflexivity.
Qed.

Lemma tiny_request_run :
  option_map (fun _ => tt) (simulate 481 100 (Scenario.single_field 0.05)) = Some tt.
Proof. vm_cast_no_check (eq_refl (Some tt)). Qed.

Lemma tiny_capacity_never_works_witness :
  exists roadNetwork ms fss,
    simulate 481 100 (Scenario.single_field 0.05) = Some (roadNetwork, ms, fss)
    /\ progress fss = [(0%float, false)].
Proof.
  pose proof tiny_request_run as R.
  destruct (simulate 481 100 (Scenario.single_field 0.05)) as [[[net ms] fss]|] eqn:E;
    [|discriminate R].
  exists net, ms, fss. split; [reflexivity|].
  exact (@tiny_capacity_never_works (Scenario.single_field 0.05) 481 100 net ms fss
           eq_refl E).
Defined.

Section NoMachine.

Context {num : Type} {J : JsNumber num}.

Lemma schedule_loop_no_machine ticks fuel cap sd net base now
    (ms' : list (@MachineState num)) fss fss' :
  schedule_loop ticks fuel cap sd net base now [] fss = Some (ms', fss') ->
  ms' = [] /\ fss' = fss.
Proof.
  revert now. induction ticks as [|ticks IH]; intros now; cbn [schedule_loop]; [discriminate|].
  destruct (_ && _); [|now intros [= <- <-]].
  cbn [for_machines]. apply IH.
Qed.

Lemma simulate_no_machine ticks fuel (data : @ScheduleRequest num) net ms fss :
  machineCount data = 0 -> simulate ticks fuel data = Some (net, ms, fss) ->
  ms = [] /\ fss = map initial_field (fields data).
Proof.
  intros M. unfold simulate. rewrite M. cbn [seq map].
  destruct (generateFieldRoadNetwork _ _ _); [|discriminate].
  destruct (schedule_loop _ _ _ _ _ _ _ _ _) as [[ms1 fss1]|] eqn:L; [|discriminate].
  apply schedule_loop_no_machine in L. destruct L as [-> ->]. cbn [return_all].
  now intros [= _ <- <-].
Qed.

End NoMachine.

Lemma mul_nan_r (a : float) : (a * nan)%float = nan.
Proof.
  apply Prim2SF_inj. rewrite mul_spec.
  change (Prim2SF nan) with S754_nan. now destruct (Prim2SF a).
Qed.

(** X19.  On binary64, a request with fields and no machine that gets a
    result gets no route, no supply event, a [totalTime] of -Infinity and
    an [efficiency] of NaN. *)
Theorem no_machine_result (data : @ScheduleRequest float) ticks fuel r :
  machineCount data = 0 -> fields data <> [] ->
  generateScheduleWithRoadNetwork ticks fuel data = Some r ->
  machines r = [] /\ totalSupplyEvents r = 0
  /\ totalTime r = neg_infinity /\ efficiency r = nan.
Proof.
  intros M NE E. destruct (@result_of_simulate float binary64 ticks fuel data r NE E)
    as (net & ms & fss & S & ->).
  destruct (simulate_no_machine _ _ _ M S) as [-> ->].
  cbn [machines totalSupplyEvents totalTime efficiency map fold_left]. repeat split.
  unfold calculateEfficiency. cbn [length fold_left].
  match goal with |- (_ * ?b)%js = _ => assert (b = nan) as -> by (vm_compute; reflexivity) end.
  apply mul_nan_r.
Qed.

Lemma no_machine_result_witness :
  exists r,
    generateScheduleWithRoadNetwork 481 100 Scenario.no_machine = Some r
    /\ machines r = [] /\ totalSupplyEvents r = 0
    /\ totalTime r = neg_infinity /\ efficiency r = nan.
Proof.
  destruct no_machine_run as [S R].
  destruct (no_machine_unpack _ _ S R) as (net & fs & r & _ & _ & E & _).
  exists r. split; [exact E|].
  apply (@no_machine_result Scenario.no_machine 481 100 r); [reflexivity|discriminate|exact E].
Defined.

(* ------------------------------------------------------------------ *)
(** ** No machine: the ceiling ends the loop *)

Section Ceiling.

Context {num : Type} {J : JsNumber num} {F : JsFacts J}.

(** Without machines every pass of the loop only advances the clock, and
    the ceiling ends it. *)
Lemma schedule_loop_no_machine_returns k fuel cap sd net base
    (fss : list (@FieldWorkState num)) :
  k <= 480 ->
  schedule_loop (481 - k) fuel cap sd net base (tick k) [] fss = Some ([], fss).
Proof.
  intros Hk. remember (480 - k) as d eqn:Ed.
  revert k Hk Ed. induction d as [|d IH]; intros k Hk Ed.
  - assert (k = 480) as -> by lia. change (481 - 480) with 1. cbn [schedule_loop].
    now rewrite clock_ceiling.
  - replace (481 - k) with (S (481 - S k)) by lia. cbn [schedule_loop for_machines].
    destruct (_ && _); [|reflexivity].
    change (nadd (tick k) (of_Z 60)) with (tick (S k)). apply IH; lia.
Qed.

(** X26.  Without machines the scheduler returns as soon as the network
    builder does: the ceiling of 8 hours ends the outer loop after 480
    iterations, and allowing more than 481 evaluations of its condition
    changes nothing.  On any number model on which 480 additions of 60 reach
    the ceiling, as on binary64. *)
Theorem no_machine_schedule_returns fuel (data : @ScheduleRequest num) roadNetwork :
  machineCount data = 0 ->
  generateFieldRoadNetwork fuel (fields data) (snapToGrid (req_baseStation data))
  = Some roadNetwork ->
  exists r, forall ticks, 481 <= ticks ->
    generateScheduleWithRoadNetwork ticks fuel data = Some r.
Proof.
  intros M E.
  assert (exists r, generateScheduleWithRoadNetwork 481 fuel data = Some r) as [r Hr].
  { assert (simulate 481 fuel data = Some (roadNetwork, [], map initial_field (fields data)))
      as S.
    { unfold simulate. rewrite E, M. cbn [seq map].
      pose proof (@schedule_loop_no_machine_returns 0 fuel (machineCapacity (parameters data))
                    (supplyDuration (parameters data)) roadNetwork
                    (snapToGrid (req_baseStation data))
                    (map initial_field (fields data)) ltac:(lia)) as L.
      change (481 - 0) with 481 in L. change (tick 0) with (@of_Z num J 0) in L.
      now rewrite L. }
    unfold generateScheduleWithRoadNetwork. rewrite S. destruct (fields data); eauto. }
  exists r. intros ticks Ht. now rewrite (generateSchedule_481 (F := F)) by exact Ht.
Qed.

End Ceiling.

Lemma no_machine_network :
  exists roadNetwork,
    generateFieldRoadNetwork 100 (fields Scenario.no_machine)
      (snapToGrid (req_baseStation Scenario.no_machine)) = Some roadNetwork.
Proof. eexists. vm_compute. reflexivity. Qed.

Lemma no_machine_schedule_returns_witness :
  exists r, forall ticks, 481 <= ticks ->
    generateScheduleWithRoadNetwork ticks 100 Scenario.no_machine = Some r.
Proof.
  destruct no_machine_network as [net E].
  exact (@no_machine_schedule_returns float binary64 binary64_facts 100 Scenario.no_machine
           net eq_refl E).
Defined.
